(** * plexpost: the file mapper and the directory pruner

    A shallow embedding of [src/plexpost/file_mapper.py] and the properties
    of the mapping rules it produces, followed by a model of the directory
    pruner, which is described in the specification only.

    Conventions of the embedding.
    - A Python [str] is a Rocq [string]; the character [ascii] of number [n]
      stands for the code point [n], so the model covers the names whose code
      points are below 256.
    - An index into a string is a [Z], as [str.rfind] returns [-1] when the
      character is absent.
    - [torrent.files()] is a dict from a file index to a record with the keys
      ['name'] and ['size']; the code only iterates over [.values()], which
      follows insertion order, so the dict is the list of its values.
    - A mapping rule is a Python dict with the keys ['download_dir'],
      ['filename'] and ['dest']; [sidecar_best_non_vobsub] adds a key
      ['rank'] to the dicts it is given, so the record has an optional
      [rank]. *)

From Stdlib Require Import ZArith List Bool Ascii String Lia Permutation Sorted.
Import ListNotations.

Local Open Scope string_scope.
Local Open Scope list_scope.
Local Open Scope Z_scope.

(** ** Python string primitives *)

Module Py.

(** [s[:n]] for a non-negative [n]. *)
Fixpoint take (n : nat) (s : string) : string :=
  match n, s with
  | S n', String a t => String a (take n' t)
  | _, _ => EmptyString
  end.

(** [s[n:]] for a non-negative [n]. *)
Fixpoint drop (n : nat) (s : string) : string :=
  match n, s with
  | S n', String _ t => drop n' t
  | _, _ => s
  end.

(** The indices the code slices with are never negative ([rfind + 1], or a
    [dotIndex] above [sepIndex >= -1]), so Python's from-the-end reading of a
    negative index never applies. *)
Definition slice_to (i : Z) (s : string) : string := take (Z.to_nat i) s.
Definition slice_from (i : Z) (s : string) : string := drop (Z.to_nat i) s.
Definition slice (i j : Z) (s : string) : string :=
  take (Z.to_nat (j - i)) (drop (Z.to_nat i) s).

(** [s.rfind(c)]: the index of the last occurrence of [c], or [-1]. *)
Fixpoint rfind (c : ascii) (s : string) : Z :=
  match s with
  | EmptyString => -1
  | String a t =>
      let r := rfind c t in
      if 0 <=? r then r + 1
      else if Ascii.eqb a c then 0 else -1
  end.

(** [s.rstrip(c)] for a one-character [c]. *)
Fixpoint rstrip (c : ascii) (s : string) : string :=
  match s with
  | EmptyString => EmptyString
  | String a t =>
      match rstrip c t with
      | EmptyString => if Ascii.eqb a c then EmptyString else String a EmptyString
      | t' => String a t'
      end
  end.

(** [c * n]. *)
Fixpoint repeat_char (c : ascii) (n : nat) : string :=
  match n with
  | O => EmptyString
  | S k => String c (repeat_char c k)
  end.

(** [x in l] for a list of strings. *)
Definition str_in (x : string) (l : list string) : bool :=
  existsb (String.eqb x) l.

(** [sorted(l, key=key, reverse=True)]: Python's sort is stable and
    [reverse=True] keeps the original order of elements with equal keys.
    An insertion sort with the same result: the head, which comes first in
    the input, is placed before every element whose key is not larger. *)
Section Sorted.
Context {A : Type} (key : A -> Z).

Fixpoint insert_desc (x : A) (l : list A) : list A :=
  match l with
  | [] => [x]
  | y :: ys => if key x <? key y then y :: insert_desc x ys else x :: y :: ys
  end.

Fixpoint sorted_reverse (l : list A) : list A :=
  match l with
  | [] => []
  | x :: xs => insert_desc x (sorted_reverse xs)
  end.
End Sorted.

End Py.

(** ** [os.path] (posixpath) *)

Module OsPath.
Import Py.

Definition sep : ascii := "/"%char.
Definition extsep : ascii := "."%char.

(** The loop of [genericpath._splitext] that skips the leading dots of the
    last component: it runs [filenameIndex] from [sepIndex + 1] up to
    [dotIndex] and answers [true] as soon as a character is not a dot. *)
Fixpoint skip_leading_dots (p : string) (filenameIndex : Z) (steps : nat) : bool :=
  match steps with
  | O => false
  | S k =>
      if negb (String.eqb (slice filenameIndex (filenameIndex + 1) p)
                          (String extsep EmptyString))
      then true
      else skip_leading_dots p (filenameIndex + 1) k
  end.

(** [os.path.splitext(p)]. *)
Definition splitext (p : string) : string * string :=
  let sepIndex := rfind sep p in
  let dotIndex := rfind extsep p in
  if sepIndex <? dotIndex then
    let filenameIndex := sepIndex + 1 in
    if skip_leading_dots p filenameIndex (Z.to_nat (dotIndex - filenameIndex))
    then (slice_to dotIndex p, slice_from dotIndex p)
    else (p, EmptyString)
  else (p, EmptyString).

(** [os.path.basename(p)]. *)
Definition basename (p : string) : string :=
  let i := rfind sep p + 1 in
  slice_from i p.

(** [os.path.dirname(p)]. *)
Definition dirname (p : string) : string :=
  let i := rfind sep p + 1 in
  let head := slice_to i p in
  if negb (String.eqb head EmptyString)
     && negb (String.eqb head (repeat_char sep (String.length head)))
  then rstrip sep head
  else head.

End OsPath.

(** ** [re]: the fragment of regular expressions the mapper builds *)

Module Re.

Inductive regex : Type :=
| Empty : regex                       (* the empty pattern *)
| Literal : ascii -> regex            (* one character *)
| Cat : regex -> regex -> regex       (* r1 r2 *)
| Alt : regex -> regex -> regex       (* r1|r2 *)
| WordBoundary : regex.               (* \b *)

Definition in_range (lo hi : N) (c : ascii) : bool :=
  let n := N_of_ascii c in (lo <=? n)%N && (n <=? hi)%N.

(** [\w] of a [str] pattern on the code points below 256: the ASCII letters
    and digits, the underscore, and the characters of the upper half for
    which [str.isalnum] holds. *)
Definition is_word_char (c : ascii) : bool :=
  in_range 48 57 c || in_range 65 90 c || in_range 97 122 c
  || Ascii.eqb c "_"%char
  || in_range 170 170 c || in_range 178 179 c || in_range 181 181 c
  || in_range 185 186 c || in_range 188 190 c
  || in_range 192 214 c || in_range 216 246 c || in_range 248 255 c.

(** Lower case of a code point below 256, as [re.IGNORECASE] folds it. *)
Definition lower (c : ascii) : ascii :=
  if in_range 65 90 c || in_range 192 214 c || in_range 216 222 c
  then ascii_of_N (N_of_ascii c + 32)
  else c.

Definition eqb_ignorecase (a c : ascii) : bool :=
  Ascii.eqb (lower a) (lower c).

Definition is_word (c : option ascii) : bool :=
  match c with
  | Some a => is_word_char a
  | None => false
  end.

Definition peek (s : string) : option ascii :=
  match s with
  | EmptyString => None
  | String a _ => Some a
  end.

(** Backtracking matcher with the flag [re.IGNORECASE]: [prev] is the
    character before the current position (none at the start of the line),
    [s] the rest of the line, and [k] what remains to be matched after [r]. *)
Fixpoint run (r : regex) (prev : option ascii) (s : string)
    (k : option ascii -> string -> bool) : bool :=
  match r with
  | Empty => k prev s
  | Literal c =>
      match s with
      | String a t => if eqb_ignorecase a c then k (Some a) t else false
      | EmptyString => false
      end
  | Cat r1 r2 => run r1 prev s (fun prev' s' => run r2 prev' s' k)
  | Alt r1 r2 => run r1 prev s k || run r2 prev s k
  | WordBoundary =>
      if xorb (is_word prev) (is_word (peek s)) then k prev s else false
  end.

(** [pattern.match(line) is not None]: a match anchored at the start of
    [line] (and free at its end). *)
Definition matches (pattern : regex) (line : string) : bool :=
  run pattern None line (fun _ _ => true).

(** A word of letters as a pattern. *)
Fixpoint word (w : string) : regex :=
  match w with
  | EmptyString => Empty
  | String c EmptyString => Literal c
  | String c t => Cat (Literal c) (word t)
  end.

(** ['|'.join(words)] as a pattern. *)
Fixpoint join_alt (words : list string) : regex :=
  match words with
  | [] => Empty
  | [w] => word w
  | w :: ws => Alt (word w) (join_alt ws)
  end.

End Re.

(** ** The file mapper, [src/plexpost/file_mapper.py] *)

Module FileMapper.
Import Py OsPath.

(** One value of [torrent.files()]: the keys ['name'] and ['size']. *)
Record File : Type := mkFile {
  name : string;
  size : Z
}.

(** The torrent object as the mapper reads it. *)
Record Torrent : Type := mkTorrent {
  files : list File;
  downloadDir : string
}.

(** A mapping rule. [rank] is the key ['rank'] that
    [sidecar_best_non_vobsub] stores in the dicts it ranks. *)
Record Rule : Type := mkRule {
  download_dir : string;
  filename : string;
  dest : string;
  rank : option Z
}.

Definition parse_extension (filename : string) : string :=
  slice_from 1 (snd (splitext filename)).

Definition is_video (filename : string) : bool :=
  str_in (parse_extension filename) ["avi"; "mkv"; "mp4"].

Definition is_subtitle (filename : string) : bool :=
  str_in (parse_extension filename)
         ["sub"; "idx"; "srt"; "smi"; "ssa"; "ass"; "vtt"].

Definition forward_main_videos (torrent : Torrent) : list Rule :=
  let videos := filter (fun file => is_video (name file)) (files torrent) in
  let videos_by_size := sorted_reverse size videos in
  match videos_by_size with
  | main_video :: _ =>
      let main_filename := name main_video in
      [mkRule (downloadDir torrent) main_filename main_filename None]
  | [] => []
  end.

Definition forward_subtitles (torrent : Torrent) : list Rule :=
  fold_left
    (fun mappings file =>
       let filename := name file in
       if is_subtitle filename
       then mappings ++ [mkRule (downloadDir torrent) filename filename None]
       else mappings)
    (files torrent) [].

Fixpoint has_sidecar (subtitles : list Rule) (video_dir : string) : bool :=
  match subtitles with
  | [] => false
  | sub :: rest =>
      if String.eqb (dirname (filename sub)) video_dir then true
      else has_sidecar rest video_dir
  end.

(** [\b(w1|w2|...)\b] with [re.IGNORECASE], tried with [pattern.match].
    The words of both callers are made of letters, so each stands for
    itself in the pattern. *)
Definition contains_any_word_ignoring_case (line : string) (words : list string) : bool :=
  let pattern :=
    Re.Cat Re.WordBoundary (Re.Cat (Re.join_alt words) Re.WordBoundary) in
  Re.matches pattern line.

Definition is_english_subtitle (name : string) : bool :=
  contains_any_word_ignoring_case name ["english"; "eng"; "en"].

Definition is_sdh_subtitle (name : string) : bool :=
  contains_any_word_ignoring_case name ["sdh"].

Definition rank_subtitle (subtitle : Rule) : Z :=
  let name := basename (filename subtitle) in
  if is_english_subtitle name then
    if is_sdh_subtitle name then 90 else 100
  else 80.

(** [sub['rank'] = r]. *)
Definition set_rank (sub : Rule) (r : Z) : Rule :=
  mkRule (download_dir sub) (filename sub) (dest sub) (Some r).

(** [s['rank']]; the loop before the sort has stored a rank in every dict
    that is sorted. *)
Definition get_rank (s : Rule) : Z :=
  match rank s with
  | Some r => r
  | None => 0
  end.

(** [subs = list(subtitles)] copies the list, not the dicts: the ranks are
    stored in the caller's dicts. The first component of the result is the
    caller's list after the call, the second the value returned. *)
Definition sidecar_best_non_vobsub (subtitles : list Rule) (video_dir : string)
    : list Rule * list Rule :=
  let subs := map (fun sub => set_rank sub (rank_subtitle sub)) subtitles in
  let ranked_subs := sorted_reverse get_rank subs in
  match ranked_subs with
  | [] => (subs, [])
  | best_sub :: _ =>
      let filename := filename best_sub in
      let basename := basename filename in
      (subs, [mkRule (download_dir best_sub) filename
                     (video_dir ++ "/" ++ basename) None])
  end.

Definition has_vobsub (subtitles : list Rule) : bool :=
  let '(has_idx, has_sub) :=
    fold_left
      (fun '(has_idx, has_sub) sub =>
         let ext := slice_from 1 (snd (splitext (filename sub))) in
         let has_idx := if String.eqb ext "idx" then true else has_idx in
         let has_sub := if String.eqb ext "sub" then true else has_sub in
         (has_idx, has_sub))
      subtitles (false, false) in
  has_idx && has_sub.

Definition sidecar_vobsub (subtitles : list Rule) (video_dir : string) : list Rule :=
  fold_left
    (fun mappings sub =>
       let filename := filename sub in
       let ext := slice_from 1 (snd (splitext filename)) in
       let basename := basename filename in
       if str_in ext ["idx"; "sub"]
       then mappings ++ [mkRule (download_dir sub) filename
                                (video_dir ++ "/" ++ basename) None]
       else mappings)
    subtitles [].

(** As for [sidecar_best_non_vobsub], the result is the caller's list of
    subtitles after the call and the value returned. *)
Definition sidecar_subtitle (main_video subtitles : list Rule)
    : list Rule * list Rule :=
  match main_video with
  | [] => (subtitles, [])
  | main :: _ =>
      let video_dir := dirname (filename main) in
      if has_sidecar subtitles video_dir then (subtitles, [])
      else if has_vobsub subtitles then (subtitles, sidecar_vobsub subtitles video_dir)
      else sidecar_best_non_vobsub subtitles video_dir
  end.

Definition move_to_dir (folder : string) (files : list Rule) : list Rule :=
  fold_left
    (fun mappings f =>
       mappings ++ [mkRule (download_dir f) (filename f) (folder ++ dest f) None])
    files [].

Definition map_single_video_download_with_subs (torrent : Torrent) (dest_dir : string)
    : list Rule :=
  let main_video := forward_main_videos torrent in
  let subtitles := forward_subtitles torrent in
  let '(subtitles, sidecar_subs) := sidecar_subtitle main_video subtitles in
  let files := main_video ++ subtitles ++ sidecar_subs in
  move_to_dir dest_dir files.

End FileMapper.

Import Py OsPath FileMapper.

(** ** Rules named in the statements *)

(** The rule that forwards a file under its own name. *)
Definition forward_rule (torrent : Torrent) (file : File) : Rule :=
  mkRule (downloadDir torrent) (name file) (name file) None.

(** A rule after [move_to_dir]. *)
Definition moved (folder : string) (f : Rule) : Rule :=
  mkRule (download_dir f) (filename f) (folder ++ dest f) None.

(** The rule that places a subtitle next to the video. *)
Definition sidecar_rule (video_dir : string) (sub : Rule) : Rule :=
  mkRule (download_dir sub) (filename sub)
         (video_dir ++ "/" ++ basename (filename sub)) None.

(** A file of a VobSub pair. *)
Definition is_vobsub_part (filename : string) : bool :=
  str_in (parse_extension filename) ["idx"; "sub"].

(** A string made of dots only. *)
Fixpoint only_dots (s : string) : bool :=
  match s with
  | EmptyString => true
  | String a t => Ascii.eqb a extsep && only_dots t
  end.

(** A list in descending order of the key. *)
Definition descending {A : Type} (key : A -> Z) : list A -> Prop :=
  StronglySorted (fun a b => key b <= key a).

(** ** Reading a word at the start of a line *)

(** The string with every character in lower case. *)
Fixpoint lower_string (s : string) : string :=
  match s with
  | EmptyString => EmptyString
  | String a t => String (Re.lower a) (lower_string t)
  end.

(** Reading the word [w] at the start of [line] whatever the case of the
    letters: what is left of the line after it. *)
Fixpoint strip_word (w line : string) : option string :=
  match w with
  | EmptyString => Some line
  | String c w' =>
      match line with
      | String a t => if Re.eqb_ignorecase a c then strip_word w' t else None
      | EmptyString => None
      end
  end.

(** [line] starts with the word [w], whatever the case, and the word ends
    there: the line ends or goes on with a character that is not a word
    character. *)
Definition starts_with_word (w line : string) : bool :=
  match strip_word w line with
  | Some rest => negb (Re.is_word (Re.peek rest))
  | None => false
  end.

(** A word that stands for itself in a pattern and has a word boundary on
    both sides: not empty and made of word characters. *)
Fixpoint word_chars (w : string) : bool :=
  match w with
  | EmptyString => true
  | String c t => Re.is_word_char c && word_chars t
  end.

Definition plain_word (w : string) : bool :=
  negb (w =? "")%string && word_chars w.

(** The continuation of the pattern after the words: the closing [\b]. *)
Definition closing_boundary (prev : option ascii) (s : string) : bool :=
  Re.run Re.WordBoundary prev s (fun _ _ => true).

(** ** The directory pruner *)

Module DirectoryPruner.

(** Modelled from the spec: the directory pruner ([pruneEmptyDirectories],
    section 4.4) and the file system it works on are not in
    [file_mapper.py]. A path is the list of its components, the innermost
    first, so that the parent of a path is its tail. *)
Definition path : Type := list string.

Definition path_eq_dec : forall a b : path, {a = b} + {a <> b} :=
  list_eq_dec string_dec.

Definition parent (p : path) : path := tl p.

(** Modelled from the spec: the state of the local file system, the files
    and the directories that exist. *)
Record FS : Type := mkFS {
  fs_files : list path;
  fs_dirs : list path
}.

Definition entries (fs : FS) : list path := fs_files fs ++ fs_dirs fs.

(** [e] lies directly in the directory [d]. *)
Definition is_child (d e : path) : bool :=
  match e with
  | [] => false
  | _ :: q => if path_eq_dec q d then true else false
  end.

(** Modelled from the spec: a directory is empty when it holds no files and
    no subdirectories. *)
Definition is_empty (fs : FS) (d : path) : bool :=
  negb (existsb (is_child d) (entries fs)).

(** Modelled from the spec: deleting a directory; a directory that is
    already gone is no error. *)
Definition rmdir (d : path) (fs : FS) : FS :=
  mkFS (fs_files fs) (remove path_eq_dec d (fs_dirs fs)).

(** Modelled from the spec: the walk upward from [d] toward [root]: an empty
    directory is deleted and the walk goes on with its parent; it stops at
    the first directory that is not empty and when it reaches [root]. *)
Fixpoint walk (root d : path) (fs : FS) : FS :=
  match d with
  | [] => fs
  | _ :: up =>
      if path_eq_dec d root then fs
      else if is_empty fs d then walk root up (rmdir d fs)
      else fs
  end.

(** Modelled from the spec: one walk for every distinct parent directory of
    a deleted file. *)
Definition pruneEmptyDirectories (root : path) (deletedFiles : list path) (fs : FS) : FS :=
  fold_left (fun fs d => walk root d fs)
            (nodup path_eq_dec (map parent deletedFiles)) fs.

(** Modelled from the spec: what the caller does before pruning, the
    deletion of the files themselves. *)
Definition delete_files (deletedFiles : list path) (fs : FS) : FS :=
  mkFS (filter (fun f => if in_dec path_eq_dec f deletedFiles then false else true)
               (fs_files fs))
       (fs_dirs fs).

(** [d] is [root] or lies below it. *)
Definition at_or_below (root d : path) : Prop :=
  exists rel, d = rel ++ root.

(** [d] lies below [root] and is not [root]. *)
Definition below (root d : path) : Prop :=
  exists rel, rel <> [] /\ d = rel ++ root.

(** [d] is [p] or a directory above it. *)
Definition ancestor_or_self (d p : path) : Prop :=
  exists k, p = k ++ d.

(** The file system is a tree below [root]: an entry whose parent lies
    below [root] has that parent among the directories. *)
Definition well_formed (root : path) (fs : FS) : Prop :=
  forall x d, In (x :: d) (entries fs) -> below root d -> In d (fs_dirs fs).


(** The walks from a list of starting directories, one after the other. *)
Definition walks (root : path) (starts : list path) (fs : FS) : FS :=
  fold_left (fun fs d => walk root d fs) starts fs.

(** The directories on the way up from the starts in [D] that are still
    there hold something. *)
Definition no_empty_left (root : path) (fs : FS) (D : list path) : Prop :=
  forall d, below root d ->
            (exists q, In q D /\ ancestor_or_self d q) ->
            is_empty fs d = true -> ~ In d (fs_dirs fs).

End DirectoryPruner.

Import DirectoryPruner.

(** ** Facts about the string primitives *)

Section StringFacts.

Lemma rfind_lower_bound (c : ascii) (s : string) : -1 <= rfind c s.
Proof.
  induction s as [|a t IH]; simpl; [lia|].
  destruct (0 <=? rfind c t) eqn:E.
  - apply Z.leb_le in E. lia.
  - destruct (Ascii.eqb a c); lia.
Qed.

Lemma rfind_upper_bound (c : ascii) (s : string) :
  rfind c s < Z.of_nat (String.length s).
Proof.
  induction s as [|a t IH]; simpl String.length; simpl rfind; [lia|].
  destruct (0 <=? rfind c t) eqn:E.
  - lia.
  - destruct (Ascii.eqb a c); lia.
Qed.

(** The index that [rfind] returns splits the string at the last
    occurrence of the character. *)
Lemma rfind_split (c : ascii) (s : string) :
  0 <= rfind c s ->
  s = (slice_to (rfind c s) s ++ String c (slice_from (rfind c s + 1) s))%string
  /\ rfind c (slice_from (rfind c s + 1) s) = -1.
Proof.
  unfold slice_to, slice_from.
  induction s as [|a t IH]; simpl rfind; [lia|].
  pose proof (rfind_lower_bound c t) as Hlb.
  destruct (0 <=? rfind c t) eqn:E.
  - apply Z.leb_le in E. intros _.
    destruct (IH E) as [IH1 IH2].
    replace (Z.to_nat (rfind c t + 1)) with (S (Z.to_nat (rfind c t))) by lia.
    replace (Z.to_nat (rfind c t + 1 + 1)) with (S (Z.to_nat (rfind c t + 1))) by lia.
    simpl. split; [f_equal; exact IH1 | exact IH2].
  - apply Z.leb_gt in E.
    destruct (Ascii.eqb_spec a c) as [->|Hne]; [intros _|lia].
    change (Z.to_nat (0 + 1)) with 1%nat. simpl. split; [reflexivity|lia].
Qed.

Lemma drop_all (s : string) (n : nat) :
  (String.length s <= n)%nat -> drop n s = EmptyString.
Proof.
  revert n; induction s as [|a t IH]; intros [|n] H; simpl in *;
    try reflexivity; try lia.
  apply IH; lia.
Qed.

Lemma append_nil_r (s : string) : (s ++ "")%string = s.
Proof. induction s; simpl; congruence. Qed.

Lemma append_assoc (a b c : string) :
  ((a ++ b) ++ c)%string = (a ++ (b ++ c))%string.
Proof. induction a; simpl; congruence. Qed.

Lemma length_append (a b : string) :
  String.length (a ++ b) = (String.length a + String.length b)%nat.
Proof. induction a; simpl; congruence. Qed.

Lemma prefix_append (a b : string) : String.prefix a (a ++ b) = true.
Proof.
  induction a as [|x a IH]; simpl; [destruct b; reflexivity|].
  destruct (ascii_dec x x); congruence.
Qed.

End StringFacts.

(** ** Facts about the loops that build a list by appending *)

Section Loops.
Context {A B : Type}.

Lemma fold_append_map_filter (p : A -> bool) (f : A -> B) (l : list A) (acc : list B) :
  fold_left (fun mappings x => if p x then mappings ++ [f x] else mappings) l acc
  = acc ++ map f (filter p l).
Proof.
  revert acc; induction l as [|x l IH]; intros acc; simpl.
  - now rewrite app_nil_r.
  - rewrite IH. destruct (p x); simpl; [now rewrite <- app_assoc|reflexivity].
Qed.

Lemma fold_append_map (f : A -> B) (l : list A) (acc : list B) :
  fold_left (fun mappings x => mappings ++ [f x]) l acc = acc ++ map f l.
Proof.
  revert acc; induction l as [|x l IH]; intros acc; simpl.
  - now rewrite app_nil_r.
  - rewrite IH. now rewrite <- app_assoc.
Qed.

End Loops.

(** ** [sorted(..., reverse=True)] is the stable descending sort *)

Section SortedFacts.
Context {A : Type} (key : A -> Z).

Lemma insert_desc_perm (x : A) (l : list A) :
  Permutation (x :: l) (insert_desc key x l).
Proof.
  induction l as [|y ys IH]; simpl; [reflexivity|].
  destruct (key x <? key y); [|reflexivity].
  rewrite perm_swap. now constructor.
Qed.

Lemma sorted_reverse_perm (l : list A) : Permutation l (sorted_reverse key l).
Proof.
  induction l as [|x xs IH]; simpl; [constructor|].
  rewrite <- insert_desc_perm. now constructor.
Qed.

Lemma sorted_reverse_in (l : list A) (x : A) :
  In x (sorted_reverse key l) <-> In x l.
Proof.
  split; apply Permutation_in;
    [symmetry|]; apply sorted_reverse_perm.
Qed.

Lemma sorted_reverse_nil (l : list A) : sorted_reverse key l = [] -> l = [].
Proof.
  intros H. apply Permutation_nil. rewrite <- H. symmetry.
  apply sorted_reverse_perm.
Qed.

Lemma insert_desc_descending (x : A) (l : list A) :
  descending key l -> descending key (insert_desc key x l).
Proof.
  unfold descending.
  induction l as [|y ys IH]; intros Hs; simpl.
  - repeat constructor.
  - inversion Hs as [|? ? Hys Hall]; subst.
    destruct (key x <? key y) eqn:E.
    + apply Z.ltb_lt in E. constructor; [now apply IH|].
      rewrite Forall_forall in *. intros z Hz.
      apply (Permutation_in _ (Permutation_sym (insert_desc_perm x ys))) in Hz.
      destruct Hz as [<-|Hz]; [lia|now apply Hall].
    + apply Z.ltb_ge in E. constructor; [exact Hs|].
      constructor; [exact E|].
      rewrite Forall_forall in *. intros z Hz. specialize (Hall z Hz). lia.
Qed.

Lemma sorted_reverse_descending (l : list A) : descending key (sorted_reverse key l).
Proof.
  induction l as [|x xs IH]; simpl; [constructor|].
  now apply insert_desc_descending.
Qed.

(** Stability: the elements of each key keep the order of the input. *)
Lemma insert_desc_stable (k : Z) (x : A) (l : list A) :
  descending key l ->
  filter (fun y => key y =? k) (insert_desc key x l)
  = filter (fun y => key y =? k) (x :: l).
Proof.
  unfold descending.
  induction l as [|y ys IH]; intros Hs; [reflexivity|].
  inversion Hs as [|? ? Hys Hall]; subst.
  simpl insert_desc. destruct (key x <? key y) eqn:E; [|reflexivity].
  apply Z.ltb_lt in E.
  cbn [filter]. rewrite (IH Hys). cbn [filter].
  destruct (key x =? k) eqn:Ex, (key y =? k) eqn:Ey; try reflexivity.
  apply Z.eqb_eq in Ex, Ey. lia.
Qed.

Lemma sorted_reverse_stable (k : Z) (l : list A) :
  filter (fun y => key y =? k) (sorted_reverse key l)
  = filter (fun y => key y =? k) l.
Proof.
  induction l as [|x xs IH]; [reflexivity|].
  simpl sorted_reverse.
  rewrite insert_desc_stable by apply sorted_reverse_descending.
  cbn [filter]. now rewrite IH.
Qed.

(** The head of the sorted list is the first element of the input whose
    key is maximal. *)
Lemma sorted_reverse_head (l : list A) (m : A) (rest : list A) :
  sorted_reverse key l = m :: rest ->
  exists pre post,
    l = pre ++ m :: post
    /\ (forall x, In x pre -> key x < key m)
    /\ (forall x, In x post -> key x <= key m).
Proof.
  revert m rest; induction l as [|x xs IH]; intros m rest H; [discriminate|].
  simpl in H. destruct (sorted_reverse key xs) as [|y ys] eqn:Es.
  - apply sorted_reverse_nil in Es. subst xs. simpl in H.
    injection H as <- _. exists [], []. repeat split; intros ? [].
  - destruct (IH y ys eq_refl) as (pre & post & Hxs & Hpre & Hpost).
    simpl in H. destruct (key x <? key y) eqn:E.
    + apply Z.ltb_lt in E. injection H as <- _.
      exists (x :: pre), post. subst xs. repeat split; [|exact Hpost].
      intros z [<-|Hz]; [exact E|now apply Hpre].
    + apply Z.ltb_ge in E. injection H as <- _.
      exists [], xs. repeat split; [intros ? []|].
      intros z Hz. subst xs. apply in_app_or in Hz.
      destruct Hz as [Hz|[<-|Hz]];
        [specialize (Hpre z Hz)|lia|specialize (Hpost z Hz)]; lia.
Qed.

End SortedFacts.

(** ** The loops of the mapper as maps and filters *)

Section MapperFacts.

Lemma forward_subtitles_eq (torrent : Torrent) :
  forward_subtitles torrent
  = map (forward_rule torrent)
        (filter (fun file => is_subtitle (name file)) (files torrent)).
Proof.
  unfold forward_subtitles.
  exact (fold_append_map_filter (fun file => is_subtitle (name file))
           (forward_rule torrent) (files torrent) []).
Qed.

Lemma move_to_dir_eq (folder : string) (l : list Rule) :
  move_to_dir folder l = map (moved folder) l.
Proof. unfold move_to_dir. exact (fold_append_map (moved folder) l []). Qed.

Lemma move_to_dir_app (folder : string) (l1 l2 : list Rule) :
  move_to_dir folder (l1 ++ l2) = move_to_dir folder l1 ++ move_to_dir folder l2.
Proof. rewrite !move_to_dir_eq. apply map_app. Qed.

Lemma sidecar_vobsub_eq (subtitles : list Rule) (video_dir : string) :
  sidecar_vobsub subtitles video_dir
  = map (sidecar_rule video_dir)
        (filter (fun sub => is_vobsub_part (filename sub)) subtitles).
Proof.
  unfold sidecar_vobsub.
  exact (fold_append_map_filter (fun sub => is_vobsub_part (filename sub))
           (sidecar_rule video_dir) subtitles []).
Qed.

Lemma has_sidecar_spec (subtitles : list Rule) (video_dir : string) :
  has_sidecar subtitles video_dir = true
  <-> exists sub, In sub subtitles /\ dirname (filename sub) = video_dir.
Proof.
  induction subtitles as [|s rest IH]; simpl.
  - split; [discriminate|intros (? & [] & _)].
  - destruct (String.eqb_spec (dirname (filename s)) video_dir) as [E|E].
    + split; [intros _; exists s; auto|reflexivity].
    + rewrite IH. split.
      * intros (sub & Hin & Hd). exists sub; auto.
      * intros (sub & [<-|Hin] & Hd); [contradiction|exists sub; auto].
Qed.

Lemma has_vobsub_loop (subtitles : list Rule) (has_idx has_sub : bool) :
  fold_left
    (fun '(has_idx, has_sub) sub =>
       let ext := slice_from 1 (snd (splitext (filename sub))) in
       let has_idx := if String.eqb ext "idx" then true else has_idx in
       let has_sub := if String.eqb ext "sub" then true else has_sub in
       (has_idx, has_sub))
    subtitles (has_idx, has_sub)
  = (has_idx || existsb (fun s => String.eqb (parse_extension (filename s)) "idx") subtitles,
     has_sub || existsb (fun s => String.eqb (parse_extension (filename s)) "sub") subtitles).
Proof.
  revert has_idx has_sub; induction subtitles as [|s rest IH]; intros i b; simpl.
  - now rewrite !orb_false_r.
  - rewrite IH. unfold parse_extension.
    destruct (String.eqb _ "idx"), (String.eqb _ "sub"); simpl;
      rewrite ?orb_true_r; reflexivity.
Qed.

Lemma has_vobsub_spec (subtitles : list Rule) :
  has_vobsub subtitles = true
  <-> (exists s, In s subtitles /\ parse_extension (filename s) = "idx")
      /\ (exists s, In s subtitles /\ parse_extension (filename s) = "sub").
Proof.
  unfold has_vobsub. rewrite has_vobsub_loop. simpl.
  rewrite andb_true_iff, !existsb_exists.
  split.
  - intros [(s1 & H1 & E1) (s2 & H2 & E2)].
    apply String.eqb_eq in E1, E2. split; eauto.
  - intros [(s1 & H1 & E1) (s2 & H2 & E2)].
    apply String.eqb_eq in E1, E2. split; eauto.
Qed.

Lemma str_in_spec (x : string) (l : list string) :
  str_in x l = true <-> In x l.
Proof.
  unfold str_in. rewrite existsb_exists. split.
  - intros (y & Hy & E). apply String.eqb_eq in E. now subst.
  - intros H. exists x. split; [exact H|apply String.eqb_refl].
Qed.

(** The two lists of extensions have nothing in common. *)
Lemma subtitle_not_video (filename : string) :
  is_subtitle filename = true -> is_video filename = false.
Proof.
  unfold is_subtitle, is_video. intros H. apply str_in_spec in H.
  simpl in H. repeat destruct H as [<-|H]; try reflexivity. contradiction.
Qed.

Lemma vobsub_part_is_subtitle (filename : string) :
  is_vobsub_part filename = true -> is_subtitle filename = true.
Proof.
  unfold is_vobsub_part, is_subtitle. intros H. apply str_in_spec in H.
  simpl in H. repeat destruct H as [<-|H]; try reflexivity. contradiction.
Qed.

Lemma video_name_not_empty (filename : string) :
  is_video filename = true -> filename <> "".
Proof. intros H ->. discriminate H. Qed.

Lemma subtitle_name_not_empty (filename : string) :
  is_subtitle filename = true -> filename <> "".
Proof. intros H ->. discriminate H. Qed.

End MapperFacts.

(** ** Sidecar selection *)

Section SidecarFacts.

Lemma filter_eq_cons {A : Type} (p : A -> bool) (l a b : list A) (m : A) :
  filter p l = a ++ m :: b ->
  exists pre post,
    l = pre ++ m :: post /\ filter p pre = a /\ filter p post = b /\ p m = true.
Proof.
  revert a; induction l as [|x xs IH]; intros a H; simpl in H.
  - destruct a; discriminate.
  - destruct (p x) eqn:Ex.
    + destruct a as [|y a]; simpl in H; injection H as Hxy H; subst.
      * exists [], xs. simpl. auto.
      * destruct (IH a H) as (pre & post & -> & Ha & Hb & Hm).
        exists (y :: pre), post. simpl. rewrite Ex, Ha. auto.
    + destruct (IH a H) as (pre & post & -> & Ha & Hb & Hm).
      exists (x :: pre), post. simpl. rewrite Ex. auto.
Qed.

Lemma filter_none {A : Type} (p : A -> bool) (l : list A) :
  (forall x, In x l -> p x = false) -> filter p l = [].
Proof.
  induction l as [|x xs IH]; intros H; simpl; [reflexivity|].
  rewrite (H x (or_introl eq_refl)). apply IH. intros y Hy. apply H. now right.
Qed.

Lemma moved_set_rank (folder : string) (sub : Rule) (r : Z) :
  moved folder (set_rank sub r) = moved folder sub.
Proof. reflexivity. Qed.

Lemma sidecar_rule_set_rank (video_dir : string) (sub : Rule) (r : Z) :
  sidecar_rule video_dir (set_rank sub r) = sidecar_rule video_dir sub.
Proof. reflexivity. Qed.

(** Without a VobSub pair the sidecar is the first subtitle of the highest
    rank, and there is none only when there is no subtitle. *)
Lemma sidecar_best_non_vobsub_spec (subtitles : list Rule) (video_dir : string) :
  fst (sidecar_best_non_vobsub subtitles video_dir)
  = map (fun sub => set_rank sub (rank_subtitle sub)) subtitles
  /\ ((subtitles = [] /\ snd (sidecar_best_non_vobsub subtitles video_dir) = [])
      \/ exists pre best post,
           subtitles = pre ++ best :: post
           /\ (forall s, In s pre -> rank_subtitle s < rank_subtitle best)
           /\ (forall s, In s post -> rank_subtitle s <= rank_subtitle best)
           /\ snd (sidecar_best_non_vobsub subtitles video_dir)
              = [sidecar_rule video_dir best]).
Proof.
  unfold sidecar_best_non_vobsub.
  set (subs := map (fun sub => set_rank sub (rank_subtitle sub)) subtitles).
  destruct (sorted_reverse get_rank subs) as [|best_sub rest] eqn:Es.
  - split; [reflexivity|]. left. split; [|reflexivity].
    apply sorted_reverse_nil in Es. unfold subs in Es.
    now apply map_eq_nil in Es.
  - split; [reflexivity|]. right.
    destruct (sorted_reverse_head get_rank subs best_sub rest Es)
      as (pre' & post' & Hsubs & Hpre & Hpost).
    unfold subs in Hsubs. apply map_eq_app in Hsubs.
    destruct Hsubs as (pre & tl & -> & <- & Htl).
    apply map_eq_cons in Htl. destruct Htl as (best & post & -> & <- & <-).
    exists pre, best, post. split; [reflexivity|].
    split; [|split].
    + intros s Hs.
      apply (Hpre (set_rank s (rank_subtitle s))).
      apply in_map_iff. eauto.
    + intros s Hs.
      apply (Hpost (set_rank s (rank_subtitle s))).
      apply in_map_iff. eauto.
    + reflexivity.
Qed.

(** What [sidecar_subtitle] leaves in the caller's list differs from what
    it was given by the stored ranks only, which [move_to_dir] does not
    copy; and every sidecar rule places one of the subtitles next to the
    video. *)
Lemma sidecar_subtitle_shape (main_video subtitles : list Rule) :
  (forall folder,
      move_to_dir folder (fst (sidecar_subtitle main_video subtitles))
      = move_to_dir folder subtitles)
  /\ Forall (fun r => exists sub video_dir,
                 In sub subtitles /\ r = sidecar_rule video_dir sub)
            (snd (sidecar_subtitle main_video subtitles)).
Proof.
  unfold sidecar_subtitle.
  destruct main_video as [|main rest]; [split; [reflexivity|constructor]|].
  destruct (has_sidecar subtitles _); [split; [reflexivity|constructor]|].
  destruct (has_vobsub subtitles).
  - split; [reflexivity|]. simpl snd. rewrite sidecar_vobsub_eq.
    apply Forall_forall. intros r Hr. apply in_map_iff in Hr.
    destruct Hr as (sub & <- & Hin). apply filter_In in Hin.
    exists sub, (dirname (filename main)). tauto.
  - destruct (sidecar_best_non_vobsub_spec subtitles (dirname (filename main)))
      as [Hfst Hsnd].
    split.
    + intros folder. rewrite Hfst, !move_to_dir_eq, map_map.
      apply map_ext. intros sub. apply moved_set_rank.
    + destruct Hsnd as [[_ ->]|(pre & best & post & -> & _ & _ & ->)];
        constructor; [|constructor].
      exists best, (dirname (filename main)). split; [|reflexivity].
      apply in_or_app. right. now left.
Qed.

Lemma map_single_unfold (torrent : Torrent) (dest_dir : string) :
  map_single_video_download_with_subs torrent dest_dir
  = move_to_dir dest_dir (forward_main_videos torrent)
    ++ move_to_dir dest_dir (forward_subtitles torrent)
    ++ move_to_dir dest_dir
         (snd (sidecar_subtitle (forward_main_videos torrent)
                                (forward_subtitles torrent))).
Proof.
  unfold map_single_video_download_with_subs.
  pose proof (sidecar_subtitle_shape (forward_main_videos torrent)
                (forward_subtitles torrent)) as [Hfst _].
  destruct (sidecar_subtitle _ _) as [subtitles sidecar_subs].
  simpl in *. rewrite !move_to_dir_app, Hfst. reflexivity.
Qed.

Lemma forward_subtitles_in (torrent : Torrent) (sub : Rule) :
  In sub (forward_subtitles torrent)
  <-> exists file, In file (files torrent)
                   /\ is_subtitle (name file) = true
                   /\ sub = forward_rule torrent file.
Proof.
  rewrite forward_subtitles_eq, in_map_iff. split.
  - intros (file & <- & Hin). apply filter_In in Hin. exists file. tauto.
  - intros (file & Hin & Hs & ->). exists file. split; [reflexivity|].
    apply filter_In. tauto.
Qed.

Lemma no_video_no_main (torrent : Torrent) :
  (forall file, In file (files torrent) -> is_video (name file) = false) ->
  forward_main_videos torrent = [].
Proof.
  intros H. unfold forward_main_videos.
  rewrite (filter_none _ _ H). reflexivity.
Qed.

(** The main video is the first of the largest video files. *)
Lemma forward_main_videos_spec (torrent : Torrent) :
  (forward_main_videos torrent = []
   /\ forall file, In file (files torrent) -> is_video (name file) = false)
  \/ exists pre m post,
       files torrent = pre ++ m :: post
       /\ is_video (name m) = true
       /\ (forall v, In v pre -> is_video (name v) = true -> size v < size m)
       /\ (forall v, In v post -> is_video (name v) = true -> size v <= size m)
       /\ forward_main_videos torrent = [forward_rule torrent m].
Proof.
  unfold forward_main_videos.
  set (videos := filter (fun file => is_video (name file)) (files torrent)).
  destruct (sorted_reverse size videos) as [|m rest] eqn:Es.
  - left. split; [reflexivity|]. apply sorted_reverse_nil in Es.
    intros file Hin. destruct (is_video (name file)) eqn:E; [|reflexivity].
    assert (In file videos) as Hv by (apply filter_In; auto).
    rewrite Es in Hv. destruct Hv.
  - right.
    destruct (sorted_reverse_head size videos m rest Es)
      as (a & b & Hv & Ha & Hb).
    destruct (filter_eq_cons _ _ _ _ _ Hv) as (pre & post & Hf & <- & <- & Hm).
    exists pre, m, post. repeat split; auto.
    + intros v Hin Hvid. apply Ha. apply filter_In. auto.
    + intros v Hin Hvid. apply Hb. apply filter_In. auto.
Qed.

End SidecarFacts.

(** ** The extension of a file name *)

Section ExtensionFacts.

Lemma drop_succ (n : nat) (s : string) (a : ascii) (t : string) :
  drop n s = String a t -> drop (S n) s = t.
Proof.
  revert s; induction n as [|n IH]; intros s H; simpl in *.
  - now subst.
  - destruct s as [|b s]; [discriminate|]. now apply IH.
Qed.

Lemma drop_empty (n : nat) (s : string) :
  drop n s = EmptyString -> drop (S n) s = EmptyString.
Proof.
  revert s; induction n as [|n IH]; intros s H; simpl in *.
  - now subst.
  - destruct s as [|b s]; [reflexivity|]. now apply IH.
Qed.

Lemma drop_drop (n m : nat) (s : string) : drop n (drop m s) = drop (m + n) s.
Proof.
  revert s; induction m as [|m IH]; intros s; simpl; [reflexivity|].
  destruct s as [|a s]; [now destruct n|apply IH].
Qed.

Lemma length_drop (n : nat) (s : string) :
  String.length (drop n s) = (String.length s - n)%nat.
Proof.
  revert s; induction n as [|n IH]; intros s; simpl.
  - lia.
  - destruct s as [|a s]; simpl; [reflexivity|apply IH].
Qed.

(** The loop over the leading dots finds a character that is not a dot
    exactly when the slice it runs over is not made of dots only. *)
Lemma skip_leading_dots_spec (p : string) (i : Z) (n : nat) :
  0 <= i ->
  (Z.to_nat i + n <= String.length p)%nat ->
  skip_leading_dots p i n = negb (only_dots (take n (drop (Z.to_nat i) p))).
Proof.
  revert i; induction n as [|n IH]; intros i Hi Hlen; [reflexivity|].
  cbn [skip_leading_dots]. unfold slice.
  replace (Z.to_nat (i + 1 - i)) with 1%nat by lia.
  pose proof (length_drop (Z.to_nat i) p) as Hd.
  destruct (drop (Z.to_nat i) p) as [|a t] eqn:Ed.
  - simpl in Hd. lia.
  - cbn [take only_dots]. unfold extsep.
    destruct (Ascii.eqb_spec a "."%char) as [->|Hne].
    + simpl. rewrite IH by lia.
      replace (Z.to_nat (i + 1)) with (S (Z.to_nat i)) by lia.
      now rewrite (drop_succ _ _ _ _ Ed).
    + simpl. destruct (Ascii.eqb_spec a "."%char); [contradiction|reflexivity].
Qed.

Lemma parse_extension_eq (filename : string) :
  let sepIndex := rfind sep filename in
  let dotIndex := rfind extsep filename in
  parse_extension filename
  = if (sepIndex <? dotIndex)
       && negb (only_dots (slice (sepIndex + 1) dotIndex filename))
    then slice_from (dotIndex + 1) filename
    else EmptyString.
Proof.
  intros sepIndex dotIndex. unfold parse_extension, splitext.
  fold sepIndex dotIndex.
  pose proof (rfind_lower_bound sep filename) as Hs. fold sepIndex in Hs.
  destruct (sepIndex <? dotIndex) eqn:E; [|reflexivity].
  pose proof (rfind_upper_bound extsep filename) as Hd. fold dotIndex in Hd.
  apply Z.ltb_lt in E. rewrite skip_leading_dots_spec by lia.
  unfold slice. simpl andb.
  destruct (only_dots _); simpl; [reflexivity|].
  unfold slice_from. rewrite drop_drop. f_equal. lia.
Qed.

End ExtensionFacts.

(** ** Facts about the pruner *)

Section PrunerFacts.
Variable root : path.

Lemma is_child_spec (d e : path) :
  is_child d e = true <-> exists x, e = x :: d.
Proof.
  unfold is_child. destruct e as [|x q].
  - split; [discriminate|intros (? & ?); discriminate].
  - destruct (path_eq_dec q d) as [->|Hne].
    + split; eauto.
    + split; [discriminate|]. intros (y & E). injection E as _ E. contradiction.
Qed.

Lemma is_empty_false (fs : FS) (d : path) :
  is_empty fs d = false <-> exists x, In (x :: d) (entries fs).
Proof.
  unfold is_empty. rewrite negb_false_iff, existsb_exists. split.
  - intros (e & Hin & Hc). apply is_child_spec in Hc. destruct Hc as (x & ->). eauto.
  - intros (x & Hin). exists (x :: d). split; [exact Hin|].
    apply is_child_spec. eauto.
Qed.

Lemma is_empty_true (fs : FS) (d : path) :
  is_empty fs d = true <-> forall x, ~ In (x :: d) (entries fs).
Proof.
  split.
  - intros H x Hin. assert (is_empty fs d = false) as E
      by (apply is_empty_false; eauto). congruence.
  - intros H. destruct (is_empty fs d) eqn:E; [reflexivity|].
    apply is_empty_false in E. destruct E as (x & Hin). now apply H in Hin.
Qed.

(** A file system with fewer entries has no fewer empty directories. *)
Lemma is_empty_mono (fs fs' : FS) (d : path) :
  incl (entries fs') (entries fs) ->
  is_empty fs d = true -> is_empty fs' d = true.
Proof.
  rewrite !is_empty_true. intros Hincl H x Hin. apply (H x). now apply Hincl.
Qed.

Lemma rmdir_entries (d : path) (fs : FS) : incl (entries (rmdir d fs)) (entries fs).
Proof.
  unfold entries, rmdir. simpl. intros e He. apply in_app_or in He.
  apply in_or_app. destruct He as [He|He]; [now left|right].
  now apply in_remove in He.
Qed.

Lemma cons_app_neq (a : string) (r p : path) : a :: r ++ p <> p.
Proof.
  intros E. apply (f_equal (@List.length string)) in E.
  simpl in E. rewrite length_app in E. lia.
Qed.

Lemma walk_root (fs : FS) : walk root root fs = fs.
Proof.
  destruct root as [|a r]; [reflexivity|].
  cbn [walk]. destruct (path_eq_dec (a :: r) (a :: r)) as [_|n];
    [reflexivity|now contradiction n].
Qed.

Lemma walk_step (a : string) (rel : path) (fs : FS) :
  walk root (a :: rel ++ root) fs
  = if is_empty fs (a :: rel ++ root)
    then walk root (rel ++ root) (rmdir (a :: rel ++ root) fs)
    else fs.
Proof.
  cbn [walk]. destruct (path_eq_dec (a :: rel ++ root) root) as [E|_]; [|reflexivity].
  now apply cons_app_neq in E.
Qed.

Lemma walk_files (d : path) (fs : FS) : fs_files (walk root d fs) = fs_files fs.
Proof.
  revert fs; induction d as [|a up IH]; intros fs; cbn [walk]; [reflexivity|].
  destruct (path_eq_dec _ _); [reflexivity|].
  destruct (is_empty fs _); [|reflexivity]. now rewrite IH.
Qed.

Lemma walk_dirs (d : path) (fs : FS) :
  incl (fs_dirs (walk root d fs)) (fs_dirs fs).
Proof.
  revert fs; induction d as [|a up IH]; intros fs; cbn [walk]; [apply incl_refl|].
  destruct (path_eq_dec _ _); [apply incl_refl|].
  destruct (is_empty fs _); [|apply incl_refl].
  intros x Hx. apply IH in Hx. simpl in Hx. now apply in_remove in Hx.
Qed.

Lemma walk_entries (d : path) (fs : FS) :
  incl (entries (walk root d fs)) (entries fs).
Proof.
  unfold entries. rewrite walk_files. intros e He. apply in_app_or in He.
  apply in_or_app. destruct He as [He|He]; [now left|right].
  now apply walk_dirs in He.
Qed.

(** Deleting an empty directory keeps the tree shape. *)
Lemma rmdir_well_formed (d : path) (fs : FS) :
  well_formed root fs -> is_empty fs d = true -> well_formed root (rmdir d fs).
Proof.
  intros Hwf He x q Hin Hq.
  pose proof (rmdir_entries d fs _ Hin) as Hin'.
  simpl. apply in_in_remove; [|now apply (Hwf x q)].
  intros ->. rewrite is_empty_true in He. now apply (He x).
Qed.

Lemma walk_well_formed (d : path) (fs : FS) :
  well_formed root fs -> well_formed root (walk root d fs).
Proof.
  revert fs; induction d as [|a up IH]; intros fs Hwf; cbn [walk]; [exact Hwf|].
  destruct (path_eq_dec _ _); [exact Hwf|].
  destruct (is_empty fs _) eqn:E; [|exact Hwf].
  apply IH. now apply rmdir_well_formed.
Qed.

(** A directory that one walk deletes lies below the root, on the way up
    from the start of the walk, and is empty afterwards. *)
Lemma walk_deleted (rel : path) (fs : FS) (x : path) :
  In x (fs_dirs fs) ->
  ~ In x (fs_dirs (walk root (rel ++ root) fs)) ->
  below root x /\ ancestor_or_self x (rel ++ root)
  /\ is_empty (walk root (rel ++ root) fs) x = true.
Proof.
  revert fs; induction rel as [|a rel IH]; intros fs Hin Hout.
  - simpl in Hout. rewrite walk_root in Hout. contradiction.
  - change ((a :: rel) ++ root) with (a :: rel ++ root) in *.
    rewrite walk_step in *.
    destruct (is_empty fs (a :: rel ++ root)) eqn:E; [|contradiction].
    destruct (path_eq_dec x (a :: rel ++ root)) as [->|Hne].
    + split; [exists (a :: rel); split; [discriminate|reflexivity]|].
      split; [exists []; reflexivity|].
      apply (is_empty_mono fs); [|exact E].
      eapply incl_tran; [apply walk_entries|apply rmdir_entries].
    + assert (In x (fs_dirs (rmdir (a :: rel ++ root) fs))) as Hin'
        by (simpl; now apply in_in_remove).
      destruct (IH _ Hin' Hout) as (Hb & (k & Hk) & He).
      split; [exact Hb|]. split; [|exact He].
      exists (a :: k). simpl. now rewrite Hk.
Qed.

(** In a tree, a directory that has an entry somewhere below it is not
    empty. *)
Lemma ancestor_not_empty (fs : FS) (k : path) (d : path) (x : string) :
  well_formed root fs -> below root d ->
  In (x :: k ++ d) (entries fs) -> is_empty fs d = false.
Proof.
  intros Hwf Hd. revert x; induction k as [|y k IH]; intros x Hin.
  - apply is_empty_false. eauto.
  - apply (IH y). unfold entries. apply in_or_app. right.
    apply (Hwf x _ Hin).
    destruct Hd as (rel & Hrel & ->).
    exists ((y :: k) ++ rel). split; [discriminate|].
    now rewrite <- app_assoc.
Qed.

(** After one walk, every directory on its way that is still there holds
    something. *)
Lemma walk_leaves_no_empty (rel : path) (fs : FS) (d : path) :
  well_formed root fs ->
  below root d -> ancestor_or_self d (rel ++ root) ->
  is_empty (walk root (rel ++ root) fs) d = true ->
  ~ In d (fs_dirs (walk root (rel ++ root) fs)).
Proof.
  revert fs; induction rel as [|a rel IH]; intros fs Hwf Hb (k & Hk) He.
  - destruct Hb as (r & Hr & ->). simpl in Hk. exfalso.
    apply (f_equal (@List.length string)) in Hk.
    rewrite !length_app in Hk. destruct r; [congruence|simpl in Hk; lia].
  - change ((a :: rel) ++ root) with (a :: rel ++ root) in *.
    rewrite walk_step in *.
    destruct (is_empty fs (a :: rel ++ root)) eqn:E.
    + destruct k as [|y k]; simpl in Hk.
      * subst d. intros Hin. apply walk_dirs in Hin. simpl in Hin.
        now apply remove_In in Hin.
      * injection Hk as _ Hk. apply IH; auto.
        -- now apply rmdir_well_formed.
        -- now exists k.
    + exfalso. destruct k as [|y k]; simpl in Hk.
      * subst d. congruence.
      * apply is_empty_false in E. destruct E as (x & Hin).
        rewrite Hk in Hin.
        change (x :: y :: k ++ d) with (x :: (y :: k) ++ d) in Hin.
        rewrite (ancestor_not_empty fs _ d x Hwf Hb Hin) in He. discriminate.
Qed.

Lemma walk_no_empty_left (rel : path) (fs : FS) (D : list path) :
  well_formed root fs -> no_empty_left root fs D ->
  no_empty_left root (walk root (rel ++ root) fs) ((rel ++ root) :: D).
Proof.
  intros Hwf HI d Hb (q & [<-|Hq] & Ha) He; [now apply walk_leaves_no_empty|].
  destruct (is_empty fs d) eqn:E.
  - intros Hin. apply walk_dirs in Hin. revert Hin. apply HI; eauto.
  - apply is_empty_false in E. destruct E as (x & Hx).
    pose proof He as He'. rewrite is_empty_true in He'. specialize (He' x).
    unfold entries in Hx, He'. rewrite walk_files in He'.
    apply in_app_or in Hx. destruct Hx as [Hx|Hx];
      [exfalso; apply He', in_or_app; now left|].
    assert (~ In (x :: d) (fs_dirs (walk root (rel ++ root) fs))) as Hout
      by (intros H; apply He', in_or_app; now right).
    destruct (walk_deleted rel fs (x :: d) Hx Hout) as (_ & (k & Hk) & _).
    apply walk_leaves_no_empty; auto.
    exists (k ++ [x]). rewrite <- app_assoc. exact Hk.
Qed.

Lemma walks_files (starts : list path) (fs : FS) :
  fs_files (walks root starts fs) = fs_files fs.
Proof.
  unfold walks.
  revert fs; induction starts as [|p ps IH]; intros fs; simpl; [reflexivity|].
  now rewrite IH, walk_files.
Qed.

Lemma walks_dirs (starts : list path) (fs : FS) :
  incl (fs_dirs (walks root starts fs)) (fs_dirs fs).
Proof.
  unfold walks.
  revert fs; induction starts as [|p ps IH]; intros fs; simpl; [apply incl_refl|].
  eapply incl_tran; [apply IH|apply walk_dirs].
Qed.

Lemma walks_entries (starts : list path) (fs : FS) :
  incl (entries (walks root starts fs)) (entries fs).
Proof.
  unfold entries. rewrite walks_files. intros e He. apply in_app_or in He.
  apply in_or_app. destruct He as [He|He]; [now left|right].
  now apply walks_dirs in He.
Qed.

Lemma walks_deleted (starts : list path) (fs : FS) (x : path) :
  Forall (at_or_below root) starts ->
  In x (fs_dirs fs) -> ~ In x (fs_dirs (walks root starts fs)) ->
  below root x /\ (exists q, In q starts /\ ancestor_or_self x q)
  /\ is_empty (walks root starts fs) x = true.
Proof.
  revert fs; induction starts as [|p ps IH]; intros fs Hs Hin Hout;
    [contradiction|].
  inversion Hs as [|? ? (rel & ->) Hps]; subst.
  change (walks root ((rel ++ root) :: ps) fs)
    with (walks root ps (walk root (rel ++ root) fs)) in *.
  destruct (in_dec path_eq_dec x (fs_dirs (walk root (rel ++ root) fs))) as [H1|H1].
  - destruct (IH _ Hps H1 Hout) as (Hb & (q & Hq & Ha) & He).
    split; [exact Hb|]. split; [|exact He].
    exists q. split; [now right|exact Ha].
  - destruct (walk_deleted rel fs x Hin H1) as (Hb & Ha & He).
    split; [exact Hb|]. split; [exists (rel ++ root); split; [now left|exact Ha]|].
    apply (is_empty_mono (walk root (rel ++ root) fs)); [|exact He].
    apply walks_entries.
Qed.

Lemma walks_invariant (starts : list path) (fs : FS) (D : list path) :
  Forall (at_or_below root) starts ->
  well_formed root fs -> no_empty_left root fs D ->
  well_formed root (walks root starts fs)
  /\ no_empty_left root (walks root starts fs) (rev starts ++ D).
Proof.
  revert fs D; induction starts as [|p ps IH]; intros fs D Hs Hwf HI;
    [split; assumption|].
  inversion Hs as [|? ? (rel & ->) Hps]; subst.
  change (walks root ((rel ++ root) :: ps) fs)
    with (walks root ps (walk root (rel ++ root) fs)).
  simpl rev. rewrite <- app_assoc. simpl app. apply IH; auto.
  - now apply walk_well_formed.
  - now apply walk_no_empty_left.
Qed.

End PrunerFacts.

(** ** Further facts used by the statements *)

Section StatementFacts.

(** There is at most one main video rule, and it forwards a video file. *)
Lemma main_video_single (torrent : Torrent) (main : Rule) :
  In main (forward_main_videos torrent) ->
  forward_main_videos torrent = [main]
  /\ exists m, In m (files torrent) /\ is_video (name m) = true
               /\ main = forward_rule torrent m.
Proof.
  intros Hin.
  destruct (forward_main_videos_spec torrent)
    as [[E _]|(pre & m & post & Hf & Hv & _ & _ & E)]; rewrite E in Hin.
  - destruct Hin.
  - destruct Hin as [<-|[]]. split; [exact E|]. exists m. rewrite Hf.
    repeat split; auto. apply in_or_app. right. now left.
Qed.

Lemma filter_filter {A : Type} (p q : A -> bool) (l : list A) :
  filter p (filter q l) = filter (fun x => q x && p x) l.
Proof.
  induction l as [|x l IH]; simpl; [reflexivity|].
  destruct (q x); simpl; [destruct (p x)|]; now rewrite IH.
Qed.

(** No character is both an [e] and an [s], whatever its case. *)
Lemma ignorecase_e_not_s (a : ascii) :
  Re.eqb_ignorecase a "e" = true -> Re.eqb_ignorecase a "s" = false.
Proof.
  unfold Re.eqb_ignorecase. intros H. apply Ascii.eqb_eq in H.
  rewrite H. reflexivity.
Qed.

(** Both patterns are tried at the start of the name: a name that starts
    with an English word does not start with [sdh]. *)
Lemma english_excludes_sdh (name : string) :
  is_english_subtitle name = true -> is_sdh_subtitle name = false.
Proof.
  unfold is_english_subtitle, is_sdh_subtitle, contains_any_word_ignoring_case,
    Re.matches.
  cbn [Re.join_alt Re.word Re.run].
  destruct name as [|a t]; [discriminate|].
  cbn [Re.peek Re.is_word xorb].
  destruct (Re.is_word_char a); cbn [xorb]; [|discriminate].
  destruct (Re.eqb_ignorecase a "e") eqn:E.
  - intros _. now rewrite (ignorecase_e_not_s a E).
  - cbn. discriminate.
Qed.

Lemma below_not_self (root : path) : ~ below root root.
Proof.
  intros (rel & Hrel & E). apply (f_equal (@List.length string)) in E.
  rewrite length_app in E. destruct rel; [congruence|simpl in E; lia].
Qed.

Lemma parent_at_or_below (root f : path) : below root f -> at_or_below root (parent f).
Proof.
  intros (rel & Hrel & ->). destruct rel as [|x rel]; [congruence|].
  now exists rel.
Qed.

End StatementFacts.

(** ** The embedding on concrete inputs *)

Example splitext_examples :
  map splitext ["video"; "a.b/c"; ".mkv"; "a/.mkv"; "x..mkv"; "a."; "dir/a.tar.gz"]
  = [("video", ""); ("a.b/c", ""); (".mkv", ""); ("a/.mkv", "");
     ("x.", ".mkv"); ("a", "."); ("dir/a.tar", ".gz")].
Proof. reflexivity. Qed.

Example dirname_examples :
  map dirname ["video"; "a.b/c"; "/"; "a//b"; "//a"; "a/b/"; "a///b.srt"]
  = [""; "a.b"; "/"; "a"; "//"; "a/b"; "a"].
Proof. reflexivity. Qed.

Example basename_examples :
  map basename ["video"; "a.b/c"; "/"; "a//b"; "a/b/"; "a///b.srt"]
  = ["video"; "c"; ""; "b"; ""; "b.srt"].
Proof. reflexivity. Qed.

Example is_english_subtitle_examples :
  map is_english_subtitle
      ["english.srt"; "English.srt"; "ENG.srt"; "en.srt"; "EN-us.srt"; "english";
       "movie.english.srt"; "eng_sub.srt"; "engulfed.srt"; "English2.srt"; ""]
  = [true; true; true; true; true; true; false; false; false; false; false].
Proof. reflexivity. Qed.

Example rank_subtitle_examples :
  map (fun n => rank_subtitle (mkRule "dl" n n None))
      ["subs/English.srt"; "subs/sdh.eng.srt"; "subs/French.srt"; "subs/eng.sdh.srt"]
  = [100; 80; 80; 100].
Proof. reflexivity. Qed.

Example sorted_reverse_example :
  sorted_reverse snd [("a", 1); ("b", 2); ("c", 1); ("d", 2)]
  = [("b", 2); ("d", 2); ("a", 1); ("c", 1)].
Proof. reflexivity. Qed.

(** Videos of the sizes 10, 50 and 30: the file of 50 is the main video,
    wherever it is listed. *)
Example largest_video_examples :
  map (fun l => forward_main_videos (mkTorrent l "dl"))
      [[mkFile "a.mkv" 10; mkFile "b.mkv" 50; mkFile "c.mkv" 30];
       [mkFile "b.mkv" 50; mkFile "c.mkv" 30; mkFile "a.mkv" 10];
       [mkFile "c.mkv" 30; mkFile "a.mkv" 10; mkFile "b.mkv" 50]]
  = [[mkRule "dl" "b.mkv" "b.mkv" None];
     [mkRule "dl" "b.mkv" "b.mkv" None];
     [mkRule "dl" "b.mkv" "b.mkv" None]].
Proof. reflexivity. Qed.

(** A subtitle whose name starts with an English word is preferred to one
    listed before it. *)
Example best_subtitle_example :
  map_single_video_download_with_subs
    (mkTorrent [mkFile "film/movie.mkv" 700; mkFile "subs/French.srt" 1;
                mkFile "subs/English.srt" 1] "dl") "lib/"
  = [mkRule "dl" "film/movie.mkv" "lib/film/movie.mkv" None;
     mkRule "dl" "subs/French.srt" "lib/subs/French.srt" None;
     mkRule "dl" "subs/English.srt" "lib/subs/English.srt" None;
     mkRule "dl" "subs/English.srt" "lib/film/English.srt" None].
Proof. reflexivity. Qed.

(** ** The properties of the specification *)

(** C1. The spec gives [movie.english.srt] the rank 100,
    [movie.english.sdh.srt] the rank 90 and [movie.fr.srt] the rank 80, and
    has the mapper choose [movie.english.srt] as the sidecar. The patterns
    are tried with [pattern.match], at the start of the name, so none of
    the three names is recognised: all three have the rank 80, and the
    sidecar is the first of them in the file list, here [movie.fr.srt]. *)
Theorem rank_ignores_language_tag_after_title :
  rank_subtitle (mkRule "dl" "subs/movie.english.srt" "subs/movie.english.srt" None) = 80
  /\ rank_subtitle (mkRule "dl" "subs/movie.english.sdh.srt" "subs/movie.english.sdh.srt" None) = 80
  /\ rank_subtitle (mkRule "dl" "subs/movie.fr.srt" "subs/movie.fr.srt" None) = 80
  /\ map_single_video_download_with_subs
       (mkTorrent [mkFile "movie.mkv" 700;
                   mkFile "subs/movie.fr.srt" 1;
                   mkFile "subs/movie.english.sdh.srt" 1;
                   mkFile "subs/movie.english.srt" 1] "dl") "lib/"
     = [mkRule "dl" "movie.mkv" "lib/movie.mkv" None;
        mkRule "dl" "subs/movie.fr.srt" "lib/subs/movie.fr.srt" None;
        mkRule "dl" "subs/movie.english.sdh.srt" "lib/subs/movie.english.sdh.srt" None;
        mkRule "dl" "subs/movie.english.srt" "lib/subs/movie.english.srt" None;
        mkRule "dl" "subs/movie.fr.srt" "lib//movie.fr.srt" None].
Proof. repeat split; vm_compute; reflexivity. Qed.

(** C2, counterexample. A torrent without a video and with one subtitle: the
    rule set is not empty, the subtitle is forwarded. *)
Lemma no_video_rules_not_empty :
  forallb (fun file => negb (is_video (name file)))
          (files (mkTorrent [mkFile "a.srt" 1] "dl")) = true
  /\ map_single_video_download_with_subs (mkTorrent [mkFile "a.srt" 1] "dl") "lib/"
     = [mkRule "dl" "a.srt" "lib/a.srt" None]
  /\ map_single_video_download_with_subs (mkTorrent [mkFile "a.srt" 1] "dl") "lib/"
     <> [].
Proof.
  split; [vm_compute; reflexivity|].
  split; [vm_compute; reflexivity|]. vm_compute. discriminate.
Qed.

(** C2, amended. When no file is classified as video, there is no main video
    rule and no sidecar rule: the rule set is exactly the forwarding rules
    of the subtitle files, with the root before each destination, and it is
    empty exactly when no file is classified as subtitle either. *)
Theorem no_video_forwards_subtitles_only (torrent : Torrent) (dest_dir : string) :
  (forall file, In file (files torrent) -> is_video (name file) = false) ->
  forward_main_videos torrent = []
  /\ snd (sidecar_subtitle (forward_main_videos torrent) (forward_subtitles torrent)) = []
  /\ map_single_video_download_with_subs torrent dest_dir
     = map (fun file => mkRule (downloadDir torrent) (name file)
                               (dest_dir ++ name file) None)
           (filter (fun file => is_subtitle (name file)) (files torrent))
  /\ (map_single_video_download_with_subs torrent dest_dir = []
      <-> forall file, In file (files torrent) -> is_subtitle (name file) = false).
Proof.
  intros Hno. pose proof (no_video_no_main torrent Hno) as Hmain.
  assert (map_single_video_download_with_subs torrent dest_dir
     = map (fun file => mkRule (downloadDir torrent) (name file)
                               (dest_dir ++ name file) None)
           (filter (fun file => is_subtitle (name file)) (files torrent))) as Hmap.
  { rewrite map_single_unfold, Hmain. simpl. rewrite app_nil_r.
    rewrite move_to_dir_eq, forward_subtitles_eq, map_map. reflexivity. }
  split; [exact Hmain|]. split; [now rewrite Hmain|]. split; [exact Hmap|].
  rewrite Hmap. split.
  - intros E file Hin. apply map_eq_nil in E.
    destruct (is_subtitle (name file)) eqn:Es; [|reflexivity].
    assert (In file (filter (fun file => is_subtitle (name file)) (files torrent)))
      as Hf by (apply filter_In; auto).
    rewrite E in Hf. destruct Hf.
  - intros H. now rewrite (filter_none _ _ H).
Qed.

(** C2, witness: a subtitle and a text file, no video. *)
Lemma no_video_forwards_subtitles_only_witness :
  map_single_video_download_with_subs
    (mkTorrent [mkFile "a.srt" 1; mkFile "notes.txt" 2] "dl") "lib/"
  = [mkRule "dl" "a.srt" "lib/a.srt" None].
Proof.
  apply (no_video_forwards_subtitles_only
           (mkTorrent [mkFile "a.srt" 1; mkFile "notes.txt" 2] "dl") "lib/").
  intros file [<-|[<-|[]]]; reflexivity.
Defined.

(** C3, counterexample. The name [video] has no dot, and its extension is
    the empty string, not the whole name. *)
Lemma extension_of_dotless_name_is_empty :
  rfind "." "video" = -1
  /\ parse_extension "video" = ""
  /\ parse_extension "video" <> "video".
Proof.
  split; [vm_compute; reflexivity|].
  split; [vm_compute; reflexivity|]. vm_compute. discriminate.
Qed.

(** C3, amended. The extension is the substring after the last dot when that
    dot comes after the last [/] and the part of the last component before
    it is not made of dots only; otherwise it is the empty string. A name
    without a dot has the empty extension and is neither video nor
    subtitle. *)
Theorem parse_extension_spec (filename : string) :
  let sepIndex := rfind "/" filename in
  let dotIndex := rfind "." filename in
  parse_extension filename
  = (if (sepIndex <? dotIndex)
        && negb (only_dots (slice (sepIndex + 1) dotIndex filename))
     then slice_from (dotIndex + 1) filename
     else "")
  /\ (dotIndex = -1 ->
      parse_extension filename = ""
      /\ is_video filename = false /\ is_subtitle filename = false).
Proof.
  intros sepIndex dotIndex.
  pose proof (parse_extension_eq filename) as E. cbv zeta in E.
  change (rfind sep filename) with sepIndex in E.
  change (rfind extsep filename) with dotIndex in E. split; [exact E|].
  intros Hd.
  pose proof (rfind_lower_bound "/" filename) as Hs. fold sepIndex in Hs.
  assert (parse_extension filename = "") as Hext.
  { rewrite E. destruct (sepIndex <? dotIndex) eqn:El; [|reflexivity].
    apply Z.ltb_lt in El. lia. }
  unfold is_video, is_subtitle. rewrite Hext. repeat split.
Qed.

(** C3, witness: the name [video]. *)
Lemma parse_extension_spec_witness :
  parse_extension "video" = "" /\ is_video "video" = false /\ is_subtitle "video" = false.
Proof.
  apply (proj2 (parse_extension_spec "video")). reflexivity.
Defined.

(** C4. When some file is classified as video, the mapper emits exactly one
    rule whose source is a video file: it is for a video file [m] such that
    every video file listed before [m] is strictly smaller and every video
    file listed after it is not larger, and before the root is put in
    front its destination is its source name. *)
Theorem main_video_is_first_largest (torrent : Torrent) (dest_dir : string) :
  (exists file, In file (files torrent) /\ is_video (name file) = true) ->
  exists pre m post,
    files torrent = pre ++ m :: post
    /\ is_video (name m) = true
    /\ (forall v, In v pre -> is_video (name v) = true -> size v < size m)
    /\ (forall v, In v post -> is_video (name v) = true -> size v <= size m)
    /\ forward_main_videos torrent
       = [mkRule (downloadDir torrent) (name m) (name m) None]
    /\ filter (fun r => is_video (filename r))
              (map_single_video_download_with_subs torrent dest_dir)
       = [mkRule (downloadDir torrent) (name m) (dest_dir ++ name m) None].
Proof.
  intros (file & Hin & Hvid).
  destruct (forward_main_videos_spec torrent)
    as [[_ Hno]|(pre & m & post & Hf & Hv & Hpre & Hpost & E)];
    [rewrite (Hno file Hin) in Hvid; discriminate|].
  exists pre, m, post. repeat split; auto.
  rewrite map_single_unfold, E, !filter_app, !move_to_dir_eq.
  simpl map at 1. cbn [filter].
  change (filename (moved dest_dir (forward_rule torrent m))) with (name m).
  rewrite Hv.
  rewrite (filter_none _ (map _ (forward_subtitles torrent))).
  - rewrite filter_none; [reflexivity|].
    intros r Hr. apply in_map_iff in Hr. destruct Hr as (s & <- & Hs).
    destruct (sidecar_subtitle_shape [forward_rule torrent m] (forward_subtitles torrent))
      as [_ Hall].
    rewrite Forall_forall in Hall.
    destruct (Hall s Hs) as (sub & vd & Hsub & ->).
    apply forward_subtitles_in in Hsub. destruct Hsub as (f & _ & Hsf & ->).
    simpl. now apply subtitle_not_video.
  - intros r Hr. apply in_map_iff in Hr. destruct Hr as (s & <- & Hs).
    apply forward_subtitles_in in Hs. destruct Hs as (f & _ & Hsf & ->).
    simpl. now apply subtitle_not_video.
Qed.

(** C4, witness: videos of the sizes 10, 50, 50 and 30. *)
Lemma main_video_is_first_largest_witness :
  exists pre m post,
    [mkFile "a.mkv" 10; mkFile "b.mkv" 50; mkFile "c.avi" 50; mkFile "d.mp4" 30]
    = pre ++ m :: post
    /\ is_video (name m) = true
    /\ (forall v, In v pre -> is_video (name v) = true -> size v < size m)
    /\ (forall v, In v post -> is_video (name v) = true -> size v <= size m)
    /\ forward_main_videos
         (mkTorrent [mkFile "a.mkv" 10; mkFile "b.mkv" 50; mkFile "c.avi" 50;
                     mkFile "d.mp4" 30] "dl")
       = [mkRule "dl" (name m) (name m) None]
    /\ filter (fun r => is_video (filename r))
              (map_single_video_download_with_subs
                 (mkTorrent [mkFile "a.mkv" 10; mkFile "b.mkv" 50; mkFile "c.avi" 50;
                             mkFile "d.mp4" 30] "dl") "lib/")
       = [mkRule "dl" (name m) ("lib/" ++ name m) None].
Proof.
  apply (main_video_is_first_largest
           (mkTorrent [mkFile "a.mkv" 10; mkFile "b.mkv" 50; mkFile "c.avi" 50;
                       mkFile "d.mp4" 30] "dl") "lib/").
  exists (mkFile "a.mkv" 10). split; [now left|reflexivity].
Defined.

(** C5. When a main video was selected, no subtitle lies in the directory of
    the main video, and the subtitles contain a file of extension [idx] and
    a file of extension [sub], the sidecar rules are, in the order of the
    file list, one rule for each subtitle of extension [idx] or [sub], with
    the destination [video_dir/basename], and no other rule. *)
Theorem vobsub_pair_sidecars (torrent : Torrent) (dest_dir : string) (main : Rule) :
  In main (forward_main_videos torrent) ->
  (forall file, In file (files torrent) -> is_subtitle (name file) = true ->
                dirname (name file) <> dirname (filename main)) ->
  (exists file, In file (files torrent) /\ is_subtitle (name file) = true
                /\ parse_extension (name file) = "idx") ->
  (exists file, In file (files torrent) /\ is_subtitle (name file) = true
                /\ parse_extension (name file) = "sub") ->
  let video_dir := dirname (filename main) in
  let vobsub_files :=
    filter (fun file => is_subtitle (name file)
                        && ((parse_extension (name file) =? "idx")%string
                            || (parse_extension (name file) =? "sub")%string))
           (files torrent) in
  snd (sidecar_subtitle (forward_main_videos torrent) (forward_subtitles torrent))
  = map (fun file => mkRule (downloadDir torrent) (name file)
                            (video_dir ++ "/" ++ basename (name file)) None)
        vobsub_files
  /\ map_single_video_download_with_subs torrent dest_dir
     = move_to_dir dest_dir (forward_main_videos torrent)
       ++ move_to_dir dest_dir (forward_subtitles torrent)
       ++ map (fun file => mkRule (downloadDir torrent) (name file)
                                  (dest_dir ++ video_dir ++ "/" ++ basename (name file)) None)
              vobsub_files.
Proof.
  intros Hmain Hdir (fi & Hfi & Hsi & Hei) (fs & Hfs & Hss & Hes) video_dir vobsub_files.
  destruct (main_video_single torrent main Hmain) as [E _].
  assert (snd (sidecar_subtitle (forward_main_videos torrent) (forward_subtitles torrent))
          = map (fun file => mkRule (downloadDir torrent) (name file)
                            (video_dir ++ "/" ++ basename (name file)) None)
                vobsub_files) as Hsc.
  { rewrite E. unfold sidecar_subtitle. fold video_dir.
    destruct (has_sidecar (forward_subtitles torrent) video_dir) eqn:Hs.
    - apply has_sidecar_spec in Hs. destruct Hs as (sub & Hsub & Hd).
      apply forward_subtitles_in in Hsub. destruct Hsub as (f & Hf & Hsf & ->).
      now apply (Hdir f Hf Hsf) in Hd.
    - assert (has_vobsub (forward_subtitles torrent) = true) as ->.
      { apply has_vobsub_spec. split.
        - exists (forward_rule torrent fi). split; [|exact Hei].
          apply forward_subtitles_in. eauto.
        - exists (forward_rule torrent fs). split; [|exact Hes].
          apply forward_subtitles_in. eauto. }
      simpl snd. rewrite sidecar_vobsub_eq, forward_subtitles_eq.
      rewrite filter_map_swap, map_map, filter_filter.
      unfold vobsub_files.
      match goal with
      | |- map ?f ?a = map ?g ?b => change (map g a = map g b)
      end.
      f_equal. apply filter_ext. intros f.
      unfold is_vobsub_part, str_in. simpl. now rewrite orb_false_r. }
  split; [exact Hsc|].
  rewrite map_single_unfold, Hsc. do 2 f_equal.
  rewrite move_to_dir_eq, map_map. reflexivity.
Qed.

(** C5, witness: the subtitles [a.idx], [a.sub] and [b.srt] in a directory
    of their own. *)
Lemma vobsub_pair_sidecars_witness :
  let torrent :=
    mkTorrent [mkFile "movie.mkv" 700; mkFile "subs/a.idx" 1;
               mkFile "subs/a.sub" 2; mkFile "subs/b.srt" 3] "dl" in
  snd (sidecar_subtitle (forward_main_videos torrent) (forward_subtitles torrent))
  = [mkRule "dl" "subs/a.idx" "/a.idx" None; mkRule "dl" "subs/a.sub" "/a.sub" None]
  /\ map_single_video_download_with_subs torrent "lib"
     = [mkRule "dl" "movie.mkv" "libmovie.mkv" None;
        mkRule "dl" "subs/a.idx" "libsubs/a.idx" None;
        mkRule "dl" "subs/a.sub" "libsubs/a.sub" None;
        mkRule "dl" "subs/b.srt" "libsubs/b.srt" None;
        mkRule "dl" "subs/a.idx" "lib/a.idx" None;
        mkRule "dl" "subs/a.sub" "lib/a.sub" None].
Proof.
  intros torrent.
  apply (vobsub_pair_sidecars torrent "lib" (mkRule "dl" "movie.mkv" "movie.mkv" None)).
  - left. reflexivity.
  - intros file [<-|[<-|[<-|[<-|[]]]]] Hs; vm_compute; discriminate.
  - exists (mkFile "subs/a.idx" 1). split; [right; left; reflexivity|split; reflexivity].
  - exists (mkFile "subs/a.sub" 2).
    split; [right; right; left; reflexivity|split; reflexivity].
Defined.

(** C6. When a main video was selected and some subtitle lies in the
    directory of the main video, there is no sidecar rule: the rule set is
    the main video rule and the forwarding rules. *)
Theorem colocated_subtitle_no_sidecar (torrent : Torrent) (dest_dir : string)
    (main : Rule) (sub : File) :
  In main (forward_main_videos torrent) ->
  In sub (files torrent) -> is_subtitle (name sub) = true ->
  dirname (name sub) = dirname (filename main) ->
  snd (sidecar_subtitle (forward_main_videos torrent) (forward_subtitles torrent)) = []
  /\ map_single_video_download_with_subs torrent dest_dir
     = move_to_dir dest_dir (forward_main_videos torrent)
       ++ move_to_dir dest_dir (forward_subtitles torrent).
Proof.
  intros Hmain Hin Hsub Hd.
  destruct (main_video_single torrent main Hmain) as [E _].
  assert (snd (sidecar_subtitle (forward_main_videos torrent) (forward_subtitles torrent))
          = []) as Hsc.
  { rewrite E. unfold sidecar_subtitle.
    assert (has_sidecar (forward_subtitles torrent) (dirname (filename main)) = true) as ->;
      [|reflexivity].
    apply has_sidecar_spec. exists (forward_rule torrent sub). split; [|exact Hd].
    apply forward_subtitles_in. eauto. }
  split; [exact Hsc|].
  rewrite map_single_unfold, Hsc. simpl. now rewrite app_nil_r.
Qed.

(** C6, witness: a subtitle next to the video and one with an English name
    elsewhere. *)
Lemma colocated_subtitle_no_sidecar_witness :
  let torrent :=
    mkTorrent [mkFile "film/movie.mkv" 700; mkFile "film/movie.srt" 1;
               mkFile "subs/english.srt" 2] "dl" in
  snd (sidecar_subtitle (forward_main_videos torrent) (forward_subtitles torrent)) = []
  /\ map_single_video_download_with_subs torrent "lib/"
     = [mkRule "dl" "film/movie.mkv" "lib/film/movie.mkv" None;
        mkRule "dl" "film/movie.srt" "lib/film/movie.srt" None;
        mkRule "dl" "subs/english.srt" "lib/subs/english.srt" None].
Proof.
  intros torrent.
  apply (colocated_subtitle_no_sidecar torrent "lib/"
           (mkRule "dl" "film/movie.mkv" "film/movie.mkv" None)
           (mkFile "film/movie.srt" 1)).
  - left. reflexivity.
  - right. left. reflexivity.
  - reflexivity.
  - reflexivity.
Defined.

(** C7. Every subtitle file is forwarded under its own name, in the order of
    the file list, whatever the main video and the sidecar rules are: the
    rule set is the main video rule, then these forwarding rules, then the
    sidecar rules. *)
Theorem subtitles_always_forwarded (torrent : Torrent) (dest_dir : string) :
  forward_subtitles torrent
  = map (fun file => mkRule (downloadDir torrent) (name file) (name file) None)
        (filter (fun file => is_subtitle (name file)) (files torrent))
  /\ map_single_video_download_with_subs torrent dest_dir
     = move_to_dir dest_dir (forward_main_videos torrent)
       ++ map (fun file => mkRule (downloadDir torrent) (name file)
                                  (dest_dir ++ name file) None)
              (filter (fun file => is_subtitle (name file)) (files torrent))
       ++ move_to_dir dest_dir
            (snd (sidecar_subtitle (forward_main_videos torrent)
                                   (forward_subtitles torrent))).
Proof.
  split; [apply forward_subtitles_eq|].
  rewrite map_single_unfold. do 2 f_equal.
  rewrite move_to_dir_eq, forward_subtitles_eq, map_map. reflexivity.
Qed.

(** C8. The destination of every rule of the mapper is the root followed by
    a string that is not empty. *)
Theorem destination_starts_with_root (torrent : Torrent) (dest_dir : string) :
  Forall (fun r => exists rest, dest r = (dest_dir ++ rest)%string
                                /\ rest <> ""
                                /\ String.prefix dest_dir (dest r) = true)
         (map_single_video_download_with_subs torrent dest_dir).
Proof.
  assert (forall l, Forall (fun f => dest f <> "") l ->
            Forall (fun r => exists rest, dest r = (dest_dir ++ rest)%string
                                /\ rest <> ""
                                /\ String.prefix dest_dir (dest r) = true)
                   (move_to_dir dest_dir l)) as Hmove.
  { intros l Hl. rewrite move_to_dir_eq. apply Forall_map.
    eapply Forall_impl; [|exact Hl]. intros f Hf. exists (dest f).
    simpl. repeat split; [exact Hf|apply prefix_append]. }
  rewrite map_single_unfold. repeat (apply Forall_app; split); apply Hmove.
  - destruct (forward_main_videos_spec torrent)
      as [[-> _]|(pre & m & post & _ & Hv & _ & _ & ->)]; constructor; [|constructor].
    simpl. now apply video_name_not_empty.
  - apply Forall_forall. intros r Hr. apply forward_subtitles_in in Hr.
    destruct Hr as (f & _ & Hs & ->). simpl. now apply subtitle_name_not_empty.
  - destruct (sidecar_subtitle_shape (forward_main_videos torrent) (forward_subtitles torrent))
      as [_ Hall].
    eapply Forall_impl; [|exact Hall]. intros r (sub & vd & _ & ->). simpl.
    destruct vd; discriminate.
Qed.

(** C9. In a tree of files and directories, after the deleted files (all
    below the root) are gone, pruning leaves the files as they are and
    deletes directories only; the root stays; and a directory is deleted
    exactly when it lies below the root, is the parent of a deleted file or
    a directory above that parent, and is empty once the walk is done. *)
Theorem prune_deletes_emptied_ancestors (root : path) (deletedFiles : list path) (fs : FS) :
  well_formed root fs ->
  Forall (below root) deletedFiles ->
  let fs' := pruneEmptyDirectories root deletedFiles fs in
  fs_files fs' = fs_files fs
  /\ incl (fs_dirs fs') (fs_dirs fs)
  /\ (In root (fs_dirs fs) -> In root (fs_dirs fs'))
  /\ (forall d, In d (fs_dirs fs) ->
        (~ In d (fs_dirs fs')
         <-> below root d
             /\ (exists f, In f deletedFiles /\ ancestor_or_self d (parent f))
             /\ is_empty fs' d = true)).
Proof.
  intros Hwf Hdel fs'.
  set (starts := nodup path_eq_dec (map parent deletedFiles)).
  assert (fs' = walks root starts fs) as Efs by reflexivity.
  assert (Forall (at_or_below root) starts) as Hstarts.
  { apply Forall_forall. intros p Hp. apply nodup_In, in_map_iff in Hp.
    destruct Hp as (f & <- & Hf). apply parent_at_or_below.
    rewrite Forall_forall in Hdel. now apply Hdel. }
  assert (forall d, In d (fs_dirs fs) -> ~ In d (fs_dirs fs') ->
            below root d
            /\ (exists f, In f deletedFiles /\ ancestor_or_self d (parent f))
            /\ is_empty fs' d = true) as Hgone.
  { intros d Hin Hout. rewrite Efs in *.
    destruct (walks_deleted root starts fs d Hstarts Hin Hout)
      as (Hb & (q & Hq & Ha) & He).
    split; [exact Hb|]. split; [|exact He].
    apply nodup_In, in_map_iff in Hq. destruct Hq as (f & <- & Hf). eauto. }
  rewrite Efs. split; [apply walks_files|]. split; [apply walks_dirs|]. split.
  - intros Hin.
    destruct (in_dec path_eq_dec root (fs_dirs (walks root starts fs))) as [H|H];
      [exact H|].
    rewrite <- Efs in H. destruct (Hgone root Hin H) as (Hb & _).
    now apply below_not_self in Hb.
  - intros d Hin. rewrite <- Efs. split; [now apply Hgone|].
    intros (Hb & (f & Hf & Ha) & He).
    destruct (walks_invariant root starts fs [] Hstarts Hwf) as [_ HI].
    + intros ? _ (? & [] & _).
    + rewrite Efs in *. apply HI; auto.
      exists (parent f). split; [|exact Ha].
      rewrite app_nil_r. apply -> in_rev.
      apply nodup_In, in_map_iff. eauto.
Qed.

(** C9, witness: the root [R] with [R/a/b/file1] deleted and [R/a/external]
    kept. *)
Lemma prune_deletes_emptied_ancestors_witness :
  let root := ["R"] in
  let deletedFiles := [["file1"; "b"; "a"; "R"]] in
  let fs := mkFS [["external"; "a"; "R"]] [["R"]; ["a"; "R"]; ["b"; "a"; "R"]] in
  let fs' := pruneEmptyDirectories root deletedFiles fs in
  fs_files fs' = fs_files fs
  /\ incl (fs_dirs fs') (fs_dirs fs)
  /\ (In root (fs_dirs fs) -> In root (fs_dirs fs'))
  /\ (forall d, In d (fs_dirs fs) ->
        (~ In d (fs_dirs fs')
         <-> below root d
             /\ (exists f, In f deletedFiles /\ ancestor_or_self d (parent f))
             /\ is_empty fs' d = true)).
Proof.
  intros root deletedFiles fs.
  apply (prune_deletes_emptied_ancestors root deletedFiles fs).
  - intros x d Hin Hb. simpl in Hin.
    destruct Hin as [E|[E|[E|[E|[]]]]]; injection E as _ <-;
      [right; left; reflexivity| |left; reflexivity|right; left; reflexivity].
    destruct Hb as (rel & _ & Hrel). destruct rel; discriminate.
  - constructor; [|constructor].
    exists ["file1"; "b"; "a"]. split; [discriminate|reflexivity].
Defined.

(** The example of the spec: [R/a/b] is deleted, [R/a] and [R] stay. *)
Example pruning_boundary :
  let file1 := ["file1"; "b"; "a"; "R"] in
  let external := ["external"; "a"; "R"] in
  let before := mkFS [file1; external] [["R"]; ["a"; "R"]; ["b"; "a"; "R"]] in
  pruneEmptyDirectories ["R"] [file1] (delete_files [file1] before)
  = mkFS [external] [["R"]; ["a"; "R"]].
Proof. vm_compute. reflexivity. Qed.

(** C10. The rank of a subtitle is 80 or 100 and never 90: no name matches
    both the English words and [sdh] at its start. *)
Theorem rank_is_never_90 (subtitle : Rule) :
  (rank_subtitle subtitle = 80 \/ rank_subtitle subtitle = 100)
  /\ rank_subtitle subtitle <> 90
  /\ is_english_subtitle (basename (filename subtitle))
     && is_sdh_subtitle (basename (filename subtitle)) = false.
Proof.
  unfold rank_subtitle.
  destruct (is_english_subtitle (basename (filename subtitle))) eqn:E.
  - rewrite (english_excludes_sdh _ E). repeat split; auto; discriminate.
  - repeat split; auto; discriminate.
Qed.

(** ** Further facts: patterns, paths and counts *)

Section RegexFacts.

Lemma is_word_char_lower (a : ascii) : Re.is_word_char (Re.lower a) = Re.is_word_char a.
Proof. destruct a as [[] [] [] [] [] [] [] []]; reflexivity. Qed.

Lemma eqb_ignorecase_word_char (a c : ascii) :
  Re.eqb_ignorecase a c = true -> Re.is_word_char a = Re.is_word_char c.
Proof.
  unfold Re.eqb_ignorecase. intros H. apply Ascii.eqb_eq in H.
  rewrite <- (is_word_char_lower a), H. apply is_word_char_lower.
Qed.

Lemma run_word_scan (w : string) (prev : option ascii) (s : string) :
  plain_word w = true ->
  Re.run (Re.word w) prev s closing_boundary = starts_with_word w s.
Proof.
  unfold plain_word, starts_with_word. intros H. apply andb_true_iff in H.
  destruct H as [Hne Hw]. revert prev s.
  induction w as [|c w IH]; [discriminate|]. intros prev s.
  simpl in Hw. apply andb_true_iff in Hw. destruct Hw as [Hc Hw].
  destruct w as [|c' w'].
  - cbn [Re.word Re.run strip_word]. destruct s as [|a t]; [reflexivity|].
    destruct (Re.eqb_ignorecase a c) eqn:E; [|reflexivity].
    unfold closing_boundary. cbn [Re.run Re.is_word].
    rewrite (eqb_ignorecase_word_char a c E), Hc. simpl.
    now destruct (Re.is_word (Re.peek t)).
  - change (Re.word (String c (String c' w')))
      with (Re.Cat (Re.Literal c) (Re.word (String c' w'))).
    cbn [Re.run]. cbn [strip_word]. destruct s as [|a t]; [reflexivity|].
    destruct (Re.eqb_ignorecase a c); [|reflexivity].
    apply (IH eq_refl Hw).
Qed.

Lemma run_join_alt (w : string) (ws : list string) (prev : option ascii) (s : string)
    (k : option ascii -> string -> bool) :
  Re.run (Re.join_alt (w :: ws)) prev s k
  = existsb (fun w => Re.run (Re.word w) prev s k) (w :: ws).
Proof.
  revert w; induction ws as [|w' ws IH]; intros w.
  - simpl. now rewrite orb_false_r.
  - change (Re.join_alt (w :: w' :: ws))
      with (Re.Alt (Re.word w) (Re.join_alt (w' :: ws))).
    cbn [Re.run]. rewrite IH. reflexivity.
Qed.

Lemma starts_with_word_first (w line : string) :
  plain_word w = true -> starts_with_word w line = true ->
  Re.is_word (Re.peek line) = true.
Proof.
  unfold plain_word, starts_with_word. intros H.
  apply andb_true_iff in H. destruct H as [Hne Hw].
  destruct w as [|c w]; [discriminate|].
  simpl in Hw. apply andb_true_iff in Hw. destruct Hw as [Hc _].
  cbn [strip_word]. destruct line as [|a t]; [discriminate|].
  destruct (Re.eqb_ignorecase a c) eqn:E; [|discriminate].
  intros _. simpl. now rewrite (eqb_ignorecase_word_char a c E).
Qed.

Lemma run_boundary (prev : option ascii) (s : string)
    (k : option ascii -> string -> bool) :
  Re.run Re.WordBoundary prev s k
  = if xorb (Re.is_word prev) (Re.is_word (Re.peek s)) then k prev s else false.
Proof. reflexivity. Qed.

(** The pattern [\b(w1|...|wn)\b] tried at the start of the line, as a scan
    of the line for each word in turn. *)
Lemma contains_any_word_scan (line : string) (words : list string) :
  words <> [] -> forallb plain_word words = true ->
  contains_any_word_ignoring_case line words
  = existsb (fun w => starts_with_word w line) words.
Proof.
  intros Hne Hall. destruct words as [|w ws]; [congruence|].
  unfold contains_any_word_ignoring_case, Re.matches.
  change (Re.run Re.WordBoundary None line
            (fun p s => Re.run (Re.join_alt (w :: ws)) p s closing_boundary)
          = existsb (fun w0 => starts_with_word w0 line) (w :: ws)).
  rewrite run_boundary, run_join_alt.
  assert (existsb (fun w0 => Re.run (Re.word w0) None line closing_boundary) (w :: ws)
          = existsb (fun w0 => starts_with_word w0 line) (w :: ws)) as E.
  { clear Hne. revert Hall. generalize (w :: ws) as l.
    induction l as [|x l IH]; intros Hall; [reflexivity|].
    simpl in Hall. apply andb_true_iff in Hall. destruct Hall as [Hx Hl].
    cbn [existsb]. rewrite (IH Hl). f_equal.
    exact (run_word_scan x None line Hx). }
  rewrite E. cbn [Re.is_word xorb].
  destruct (Re.is_word (Re.peek line)) eqn:Ep; [reflexivity|].
  symmetry. apply not_true_iff_false. intros Hex.
  apply existsb_exists in Hex. destruct Hex as (x & Hx & Hs).
  rewrite forallb_forall in Hall.
  rewrite (starts_with_word_first x line (Hall x Hx) Hs) in Ep. discriminate.
Qed.

Lemma strip_word_spec (w line rest : string) :
  strip_word w line = Some rest
  <-> exists pre, line = (pre ++ rest)%string /\ lower_string pre = lower_string w.
Proof.
  revert line; induction w as [|c w IH]; intros line.
  - simpl. split.
    + intros E. injection E as <-. now exists "".
    + intros (pre & -> & Hpre). destruct pre; [reflexivity|discriminate].
  - cbn [strip_word]. destruct line as [|a t].
    + split; [discriminate|]. intros (pre & E & Hpre).
      destruct pre; [discriminate|discriminate].
    + unfold Re.eqb_ignorecase. destruct (Ascii.eqb_spec (Re.lower a) (Re.lower c)) as [El|El].
      * rewrite IH. split.
        -- intros (pre & -> & Hpre). exists (String a pre). simpl.
           split; [reflexivity|]. now rewrite El, Hpre.
        -- intros (pre & E & Hpre). destruct pre as [|b pre]; [discriminate|].
           simpl in E, Hpre. injection E as <- ->. injection Hpre as _ Hpre. eauto.
      * split; [discriminate|]. intros (pre & E & Hpre).
        destruct pre as [|b pre]; [discriminate|].
        simpl in E, Hpre. injection E as <- ->. injection Hpre as Hb _. contradiction.
Qed.

End RegexFacts.

Section MoreStringFacts.

Lemma rfind_drop (c : ascii) (n : nat) (s : string) :
  0 <= rfind c (drop n s) -> rfind c s = rfind c (drop n s) + Z.of_nat n.
Proof.
  revert s; induction n as [|n IH]; intros s H; [simpl; lia|].
  destruct s as [|a t]; [simpl in H; lia|].
  cbn [drop] in *. cbn [rfind]. specialize (IH t H).
  destruct (0 <=? rfind c t) eqn:E; [lia|]. apply Z.leb_gt in E. lia.
Qed.

Lemma rfind_drop_none (c : ascii) (n : nat) (s : string) :
  rfind c s < Z.of_nat n -> rfind c (drop n s) = -1.
Proof.
  intros H. pose proof (rfind_lower_bound c (drop n s)) as Hl.
  destruct (Z_lt_le_dec (rfind c (drop n s)) 0) as [|Hge]; [lia|].
  pose proof (rfind_drop c n s Hge). lia.
Qed.

Lemma rfind_append_char (c : ascii) (a b : string) :
  rfind c b = -1 -> rfind c (a ++ String c b) = Z.of_nat (String.length a).
Proof.
  intros Hb. induction a as [|x a IH].
  - simpl. rewrite Hb. simpl. now rewrite Ascii.eqb_refl.
  - cbn [append rfind String.length]. rewrite IH.
    destruct (0 <=? Z.of_nat (String.length a)) eqn:E; [lia|].
    apply Z.leb_gt in E. lia.
Qed.

Lemma drop_append (a b : string) : drop (String.length a) (a ++ b) = b.
Proof. induction a; simpl; auto. Qed.

Lemma take_append (a b : string) : take (String.length a) (a ++ b) = a.
Proof. induction a; simpl; [now destruct b|congruence]. Qed.

Lemma basename_no_sep (p : string) : rfind sep (basename p) = -1.
Proof.
  unfold basename.
  pose proof (rfind_lower_bound sep p) as Hl.
  destruct (Z_lt_le_dec (rfind sep p) 0) as [Hlt|Hge].
  - assert (rfind sep p = -1) as E by lia.
    rewrite E. unfold slice_from. change (Z.to_nat (-1 + 1)) with 0%nat.
    now destruct p.
  - now destruct (rfind_split sep p Hge).
Qed.

Lemma basename_append (a b : string) :
  rfind sep b = -1 -> basename (a ++ String sep b) = b.
Proof.
  intros Hb. unfold basename, slice_from. rewrite (rfind_append_char _ _ _ Hb).
  replace (Z.to_nat (Z.of_nat (String.length a) + 1))
    with (String.length (a ++ String sep "")).
  - replace (a ++ String sep b)%string with ((a ++ String sep "") ++ b)%string.
    + apply drop_append.
    + now rewrite append_assoc.
  - rewrite length_append. simpl. lia.
Qed.

Lemma rstrip_append_char (c : ascii) (s : string) :
  rstrip c (s ++ String c "") = rstrip c s.
Proof.
  induction s as [|a t IH]; simpl.
  - now rewrite Ascii.eqb_refl.
  - now rewrite IH.
Qed.

Lemma rstrip_idempotent (c : ascii) (s : string) :
  rstrip c (rstrip c s) = rstrip c s.
Proof.
  induction s as [|a t IH]; [reflexivity|].
  cbn [rstrip]. destruct (rstrip c t) as [|b u] eqn:E.
  - destruct (Ascii.eqb a c) eqn:Ea; [reflexivity|].
    simpl. now rewrite Ea.
  - cbn [rstrip]. cbn [rstrip] in IH. now rewrite IH.
Qed.

Lemma repeat_char_append (c : ascii) (s : string) :
  (s ++ String c "")%string = repeat_char c (String.length (s ++ String c "")) ->
  s = repeat_char c (String.length s).
Proof.
  induction s as [|a t IH]; [reflexivity|].
  simpl. intros E. injection E as -> E. f_equal. now apply IH.
Qed.

(** A directory name that is not made of slashes only has no slash at its
    end. *)
Lemma dirname_rstrip (p : string) :
  dirname p <> repeat_char sep (String.length (dirname p)) ->
  rstrip sep (dirname p) = dirname p.
Proof.
  unfold dirname.
  set (head := slice_to (rfind sep p + 1) p).
  destruct (negb (head =? "")%string) eqn:E1; simpl.
  - destruct (negb (head =? repeat_char sep (String.length head))%string) eqn:E2; simpl.
    + intros _. apply rstrip_idempotent.
    + apply negb_false_iff, String.eqb_eq in E2. intros H. now rewrite <- E2 in H.
  - apply negb_false_iff, String.eqb_eq in E1. rewrite E1. intros H. now elim H.
Qed.

Lemma dirname_append (vd b : string) :
  rfind sep b = -1 ->
  vd <> repeat_char sep (String.length vd) ->
  dirname (vd ++ String sep b) = rstrip sep vd.
Proof.
  intros Hb Hvd. unfold dirname, slice_to.
  rewrite (rfind_append_char _ _ _ Hb).
  replace (Z.to_nat (Z.of_nat (String.length vd) + 1))
    with (String.length (vd ++ String sep "")) by (rewrite length_append; simpl; lia).
  replace (vd ++ String sep b)%string with ((vd ++ String sep "") ++ b)%string
    by now rewrite append_assoc.
  rewrite take_append.
  destruct (String.eqb_spec (vd ++ String sep "") "") as [E|_];
    [destruct vd; discriminate|].
  destruct (String.eqb_spec (vd ++ String sep "")
              (repeat_char sep (String.length (vd ++ String sep "")))) as [E|_].
  - now apply repeat_char_append in E.
  - simpl. apply rstrip_append_char.
Qed.

End MoreStringFacts.

Section MoreMapperFacts.

Lemma move_to_dir_compose (a b : string) (l : list Rule) :
  move_to_dir a (move_to_dir b l) = move_to_dir (a ++ b) l.
Proof.
  rewrite !move_to_dir_eq, map_map. apply map_ext. intros f.
  unfold moved. simpl. now rewrite append_assoc.
Qed.

Lemma find_map {A B : Type} (p : B -> bool) (f : A -> B) (l : list A) :
  find p (map f l) = option_map f (find (fun x => p (f x)) l).
Proof.
  induction l as [|x l IH]; simpl; [reflexivity|].
  destruct (p (f x)); [reflexivity|exact IH].
Qed.

Lemma find_first {A : Type} (p : A -> bool) (pre post : list A) (x : A) :
  (forall y, In y pre -> p y = false) -> p x = true ->
  find p (pre ++ x :: post) = Some x.
Proof.
  intros Hpre Hx. induction pre as [|y pre IH]; simpl.
  - now rewrite Hx.
  - rewrite (Hpre y (or_introl eq_refl)). apply IH.
    intros z Hz. apply Hpre. now right.
Qed.

Lemma find_none_all {A : Type} (p : A -> bool) (l : list A) :
  (forall y, In y l -> p y = false) -> find p l = None.
Proof.
  intros H. induction l as [|y l IH]; simpl; [reflexivity|].
  rewrite (H y (or_introl eq_refl)). apply IH. intros z Hz. apply H. now right.
Qed.

(** The rank tells whether the base name starts with an English word. *)
Lemma rank_by_english (subtitle : Rule) :
  rank_subtitle subtitle
  = if is_english_subtitle (basename (filename subtitle)) then 100 else 80.
Proof.
  unfold rank_subtitle.
  destruct (is_english_subtitle (basename (filename subtitle))) eqn:E;
    [|reflexivity].
  now rewrite (english_excludes_sdh _ E).
Qed.

Lemma sidecar_best_choice (subtitles : list Rule) (video_dir : string) :
  snd (sidecar_best_non_vobsub subtitles video_dir)
  = match find (fun s => is_english_subtitle (basename (filename s))) subtitles with
    | Some s => [sidecar_rule video_dir s]
    | None => match subtitles with
              | s :: _ => [sidecar_rule video_dir s]
              | [] => []
              end
    end.
Proof.
  destruct (sidecar_best_non_vobsub_spec subtitles video_dir)
    as [_ [[-> ->]|(pre & best & post & -> & Hpre & Hpost & ->)]];
    [reflexivity|].
  destruct (is_english_subtitle (basename (filename best))) eqn:E.
  - rewrite (find_first _ pre post best); [reflexivity| |exact E].
    intros y Hy. specialize (Hpre y Hy). rewrite !rank_by_english, E in Hpre.
    destruct (is_english_subtitle _); [lia|reflexivity].
  - assert (pre = []) as ->.
    { destruct pre as [|y pre]; [reflexivity|].
      specialize (Hpre y (or_introl eq_refl)).
      rewrite !rank_by_english, E in Hpre.
      destruct (is_english_subtitle _); lia. }
    simpl app. rewrite find_none_all; [reflexivity|].
    intros y [<-|Hy]; [exact E|].
    specialize (Hpost y Hy). rewrite !rank_by_english, E in Hpost.
    destruct (is_english_subtitle _); [lia|reflexivity].
Qed.

(** Every sidecar rule places a subtitle in the directory of the main
    video. *)
Lemma sidecar_subtitle_rules (main : Rule) (rest subtitles : list Rule) :
  Forall (fun r => exists sub,
              In sub subtitles /\ r = sidecar_rule (dirname (filename main)) sub)
         (snd (sidecar_subtitle (main :: rest) subtitles)).
Proof.
  unfold sidecar_subtitle.
  destruct (has_sidecar subtitles _); [constructor|].
  destruct (has_vobsub subtitles).
  - simpl snd. rewrite sidecar_vobsub_eq.
    apply Forall_forall. intros r Hr. apply in_map_iff in Hr.
    destruct Hr as (sub & <- & Hin). apply filter_In in Hin.
    exists sub. tauto.
  - destruct (sidecar_best_non_vobsub_spec subtitles (dirname (filename main)))
      as [_ [[_ ->]|(pre & best & post & -> & _ & _ & ->)]];
      constructor; [|constructor].
    exists best. split; [|reflexivity]. apply in_or_app. right. now left.
Qed.

Lemma media_filter_videos (l : list File) :
  filter (fun file => is_video (name file))
         (filter (fun file => is_video (name file) || is_subtitle (name file)) l)
  = filter (fun file => is_video (name file)) l.
Proof.
  rewrite filter_filter. apply filter_ext. intros f.
  now destruct (is_video (name f)), (is_subtitle (name f)).
Qed.

Lemma media_filter_subtitles (l : list File) :
  filter (fun file => is_subtitle (name file))
         (filter (fun file => is_video (name file) || is_subtitle (name file)) l)
  = filter (fun file => is_subtitle (name file)) l.
Proof.
  rewrite filter_filter. apply filter_ext. intros f.
  now destruct (is_video (name f)), (is_subtitle (name f)).
Qed.

(** The extension is what follows the last dot of a stem that is not
    empty, and holds neither a dot nor a slash. *)
Lemma parse_extension_shape (filename : string) :
  rfind extsep (parse_extension filename) = -1
  /\ rfind sep (parse_extension filename) = -1
  /\ (parse_extension filename <> "" ->
      exists stem, stem <> ""
        /\ filename = (stem ++ "." ++ parse_extension filename)%string).
Proof.
  pose proof (parse_extension_eq filename) as E. cbv zeta in E.
  set (sepIndex := rfind sep filename) in *.
  set (dotIndex := rfind extsep filename) in *.
  pose proof (rfind_lower_bound sep filename) as Hs. fold sepIndex in Hs.
  destruct (sepIndex <? dotIndex) eqn:El;
    [|rewrite E; simpl; repeat split; congruence].
  apply Z.ltb_lt in El.
  destruct (only_dots (slice (sepIndex + 1) dotIndex filename)) eqn:Ed;
    [rewrite E; simpl; repeat split; congruence|].
  simpl in E. rewrite E.
  assert (0 <= dotIndex) as Hd by lia.
  destruct (rfind_split extsep filename Hd) as [Hsplit Hnodot].
  fold dotIndex in Hsplit, Hnodot.
  split; [exact Hnodot|]. split.
  - unfold slice_from. apply rfind_drop_none. fold sepIndex. lia.
  - intros _. exists (slice_to dotIndex filename). split; [|exact Hsplit].
    intros Hstem. unfold slice in Ed.
    assert (dotIndex = 0) as H0.
    { pose proof (rfind_upper_bound extsep filename) as Hu. fold dotIndex in Hu.
      unfold slice_to in Hstem.
      destruct (Z.to_nat dotIndex) as [|n] eqn:En; [lia|].
      destruct filename; [simpl in Hu; lia|discriminate]. }
    rewrite H0 in Ed. replace (Z.to_nat (0 - (sepIndex + 1))) with 0%nat in Ed by lia.
    simpl in Ed. discriminate Ed.
Qed.

End MoreMapperFacts.

Section CountFacts.

Lemma sidecar_vobsub_length (subtitles : list Rule) (video_dir : string) :
  (List.length (sidecar_vobsub subtitles video_dir) <= List.length subtitles)%nat.
Proof.
  rewrite sidecar_vobsub_eq, length_map. apply filter_length_le.
Qed.

Lemma sidecar_best_length (subtitles : list Rule) (video_dir : string) :
  (List.length (snd (sidecar_best_non_vobsub subtitles video_dir)) <= 1)%nat
  /\ (List.length (snd (sidecar_best_non_vobsub subtitles video_dir))
      <= List.length subtitles)%nat.
Proof.
  destruct (sidecar_best_non_vobsub_spec subtitles video_dir)
    as [_ [[-> ->]|(pre & best & post & -> & _ & _ & ->)]]; simpl; [lia|].
  rewrite length_app. simpl. lia.
Qed.

End CountFacts.

(** ** Further properties of the mapper *)

(** X1. Every rule of the mapper has the download directory of the torrent
    and the name of one of its video or subtitle files as its source, and
    carries no rank, although the ranking stores one in the forwarded
    subtitles. *)
Theorem every_rule_is_for_a_media_file (torrent : Torrent) (dest_dir : string) :
  Forall (fun r =>
            rank r = None
            /\ download_dir r = downloadDir torrent
            /\ exists file,
                 In file (files torrent) /\ filename r = name file
                 /\ (is_video (name file) = true \/ is_subtitle (name file) = true))
         (map_single_video_download_with_subs torrent dest_dir).
Proof.
  assert (forall l,
    Forall (fun f => download_dir f = downloadDir torrent
                     /\ exists file, In file (files torrent) /\ filename f = name file
                          /\ (is_video (name file) = true
                              \/ is_subtitle (name file) = true)) l ->
    Forall (fun r => rank r = None /\ download_dir r = downloadDir torrent
                     /\ exists file, In file (files torrent) /\ filename r = name file
                          /\ (is_video (name file) = true
                              \/ is_subtitle (name file) = true))
           (move_to_dir dest_dir l)) as Hmove.
  { intros l Hl. rewrite move_to_dir_eq. apply Forall_map.
    eapply Forall_impl; [|exact Hl]. intros f [Hd Hf]. simpl. auto. }
  assert (Forall (fun f => download_dir f = downloadDir torrent
                     /\ exists file, In file (files torrent) /\ filename f = name file
                          /\ (is_video (name file) = true
                              \/ is_subtitle (name file) = true))
                 (forward_subtitles torrent)) as Hsubs.
  { apply Forall_forall. intros r Hr. apply forward_subtitles_in in Hr.
    destruct Hr as (f & Hf & Hs & ->). simpl. eauto 6. }
  rewrite map_single_unfold. repeat (apply Forall_app; split); apply Hmove.
  - destruct (forward_main_videos_spec torrent)
      as [[-> _]|(pre & m & post & Hf & Hv & _ & _ & ->)]; constructor; [|constructor].
    simpl. split; [reflexivity|]. exists m. rewrite Hf. repeat split; auto.
    apply in_or_app. right. now left.
  - exact Hsubs.
  - destruct (sidecar_subtitle_shape (forward_main_videos torrent)
                (forward_subtitles torrent)) as [_ Hall].
    eapply Forall_impl; [|exact Hall]. intros r (sub & vd & Hsub & ->).
    rewrite Forall_forall in Hsubs. exact (Hsubs sub Hsub).
Qed.

(** X2. The files that are neither video nor subtitle have no effect on the
    result: the mapper gives the same rules without them. *)
Theorem other_files_are_ignored (torrent : Torrent) (dest_dir : string) :
  map_single_video_download_with_subs
    (mkTorrent (filter (fun file => is_video (name file) || is_subtitle (name file))
                       (files torrent))
               (downloadDir torrent)) dest_dir
  = map_single_video_download_with_subs torrent dest_dir.
Proof.
  set (media := mkTorrent _ _).
  assert (forward_main_videos media = forward_main_videos torrent) as Hm.
  { unfold forward_main_videos, media. simpl files. simpl downloadDir.
    now rewrite media_filter_videos. }
  assert (forward_subtitles media = forward_subtitles torrent) as Hs.
  { rewrite !forward_subtitles_eq. unfold media. simpl files.
    now rewrite media_filter_subtitles. }
  now rewrite !map_single_unfold, Hm, Hs.
Qed.

(** X3. The destination root is a prefix and nothing more: the rules for the
    root [a ++ b] are the rules for the root [b] moved to [a]; which files
    are chosen does not depend on the root. *)
Theorem root_is_only_a_prefix (torrent : Torrent) (a b : string) :
  map_single_video_download_with_subs torrent (a ++ b)
  = move_to_dir a (map_single_video_download_with_subs torrent b).
Proof.
  rewrite !map_single_unfold, !move_to_dir_app, !move_to_dir_compose.
  reflexivity.
Qed.

(** X4. Moving twice is moving once to the joined folder, and moving keeps
    the sources and their order. Nothing is put between the folder and the
    destination: the caller writes the separator. *)
Theorem move_to_dir_twice (a b : string) (l : list Rule) :
  move_to_dir a (move_to_dir b l) = move_to_dir (a ++ b) l
  /\ map filename (move_to_dir a l) = map filename l
  /\ map download_dir (move_to_dir a l) = map download_dir l
  /\ map dest (move_to_dir a l) = map (fun f => (a ++ dest f)%string) l.
Proof.
  split; [apply move_to_dir_compose|].
  rewrite move_to_dir_eq, !map_map. repeat split; now apply map_ext.
Qed.

(** X5. A name classified as video, or as subtitle, is a stem that is not
    empty, a dot and one of the extensions of the list, in lower case as
    listed; and no name is both. *)
Theorem classified_by_suffix (filename : string) :
  (is_video filename = true ->
   exists stem ext, In ext ["avi"; "mkv"; "mp4"] /\ stem <> ""
                    /\ filename = (stem ++ "." ++ ext)%string)
  /\ (is_subtitle filename = true ->
      exists stem ext, In ext ["sub"; "idx"; "srt"; "smi"; "ssa"; "ass"; "vtt"]
                       /\ stem <> ""
                       /\ filename = (stem ++ "." ++ ext)%string)
  /\ is_video filename && is_subtitle filename = false.
Proof.
  destruct (parse_extension_shape filename) as (_ & _ & Hstem).
  split; [|split].
  - unfold is_video. intros H. pose proof H as Hin. apply str_in_spec in Hin.
    destruct Hstem as (stem & Hne & E).
    { intros E. rewrite E in H. discriminate. }
    exists stem, (parse_extension filename). auto.
  - unfold is_subtitle. intros H. pose proof H as Hin. apply str_in_spec in Hin.
    destruct Hstem as (stem & Hne & E).
    { intros E. rewrite E in H. discriminate. }
    exists stem, (parse_extension filename). auto.
  - destruct (is_subtitle filename) eqn:E; [|apply andb_false_r].
    now rewrite (subtitle_not_video _ E).
Qed.

Lemma classified_by_suffix_witness :
  exists stem ext, In ext ["avi"; "mkv"; "mp4"] /\ stem <> ""
                   /\ "film/movie.2019.mkv" = (stem ++ "." ++ ext)%string.
Proof.
  apply (proj1 (classified_by_suffix "film/movie.2019.mkv")). reflexivity.
Defined.

(** X6. The extension never holds a dot or a slash; when it is not empty, the
    name is a stem that is not empty, a dot and the extension. *)
Theorem extension_shape (filename : string) :
  rfind "." (parse_extension filename) = -1
  /\ rfind "/" (parse_extension filename) = -1
  /\ (parse_extension filename <> "" ->
      exists stem, stem <> ""
        /\ filename = (stem ++ "." ++ parse_extension filename)%string).
Proof. exact (parse_extension_shape filename). Qed.

Lemma extension_shape_witness :
  exists stem, stem <> ""
    /\ "a.b/x..srt" = (stem ++ "." ++ parse_extension "a.b/x..srt")%string.
Proof.
  apply (proj2 (proj2 (extension_shape "a.b/x..srt"))). discriminate.
Defined.

(** X7. For a list, not empty, of words made of word characters, the pattern
    matches a line exactly when the line starts with one of the words,
    whatever the case of the letters, and the word ends there: the line
    ends or goes on with a character that is not a word character. A word
    further in the line is not found. *)
Theorem word_pattern_is_anchored (line : string) (words : list string) :
  words <> [] -> forallb plain_word words = true ->
  (contains_any_word_ignoring_case line words = true
   <-> exists w pre rest,
         In w words /\ line = (pre ++ rest)%string
         /\ lower_string pre = lower_string w
         /\ Re.is_word (Re.peek rest) = false).
Proof.
  intros Hne Hall. rewrite (contains_any_word_scan line words Hne Hall).
  rewrite existsb_exists. unfold starts_with_word. split.
  - intros (w & Hw & H). destruct (strip_word w line) as [rest|] eqn:E;
      [|discriminate].
    apply strip_word_spec in E. destruct E as (pre & -> & Hpre).
    exists w, pre, rest. repeat split; auto. now apply negb_true_iff.
  - intros (w & pre & rest & Hw & Hl & Hpre & Hrest). exists w. split; [exact Hw|].
    assert (strip_word w line = Some rest) as ->
      by (apply strip_word_spec; eauto).
    now rewrite Hrest.
Qed.

Lemma word_pattern_is_anchored_witness :
  contains_any_word_ignoring_case "ENG-forced.srt" ["english"; "eng"; "en"] = true.
Proof.
  apply (word_pattern_is_anchored "ENG-forced.srt" ["english"; "eng"; "en"]).
  - discriminate.
  - reflexivity.
  - exists "eng", "ENG", "-forced.srt".
    repeat split; [right; left; reflexivity].
Defined.

(** X8. The rank of a subtitle is 100 exactly when its base name starts with
    [english], [eng] or [en], whatever the case, followed by the end of the
    name or by a character that is not a word character; it is 80 in every
    other case, whatever the directories of the path are. *)
Theorem rank_100_iff_english_start (subtitle : Rule) :
  (rank_subtitle subtitle = 100
   <-> exists w pre rest,
         In w ["english"; "eng"; "en"]
         /\ basename (filename subtitle) = (pre ++ rest)%string
         /\ lower_string pre = w
         /\ Re.is_word (Re.peek rest) = false)
  /\ (rank_subtitle subtitle <> 100 -> rank_subtitle subtitle = 80).
Proof.
  rewrite rank_by_english. unfold is_english_subtitle.
  rewrite (contains_any_word_scan _ ["english"; "eng"; "en"])
    by (try discriminate; reflexivity).
  destruct (existsb _ _) eqn:E; (split; [|congruence]).
  - split; [intros _|reflexivity].
    apply existsb_exists in E. destruct E as (w & Hw & H).
    unfold starts_with_word in H.
    destruct (strip_word w _) as [rest|] eqn:Es; [|discriminate].
    apply strip_word_spec in Es. destruct Es as (pre & Hl & Hpre).
    exists w, pre, rest. repeat split; auto.
    + rewrite Hpre. simpl in Hw.
      repeat destruct Hw as [<-|Hw]; try reflexivity. contradiction.
    + now apply negb_true_iff.
  - split; [discriminate|]. intros (w & pre & rest & Hw & Hl & Hpre & Hrest).
    exfalso. apply not_true_iff_false in E. apply E.
    apply existsb_exists. exists w. split; [exact Hw|].
    unfold starts_with_word.
    assert (strip_word w (basename (filename subtitle)) = Some rest) as ->.
    { apply strip_word_spec. exists pre. split; [exact Hl|].
      rewrite Hpre. simpl in Hw.
      repeat destruct Hw as [<-|Hw]; try reflexivity. contradiction. }
    now rewrite Hrest.
Qed.

Lemma rank_100_iff_english_start_witness :
  rank_subtitle (mkRule "dl" "subs/movie.english.srt" "subs/movie.english.srt" None) = 80.
Proof.
  apply (proj2 (rank_100_iff_english_start
                  (mkRule "dl" "subs/movie.english.srt" "subs/movie.english.srt" None))).
  vm_compute. discriminate.
Defined.

(** X9. With a main video, no subtitle in its directory and no VobSub pair
    (no [idx] file or no [sub] file), the sidecar is the first subtitle
    whose base name starts with an English word; when there is none, it is
    the first subtitle; and there is no sidecar when there is no subtitle. *)
Theorem best_sidecar_is_first_english_or_first (torrent : Torrent) (main : Rule) :
  In main (forward_main_videos torrent) ->
  (forall file, In file (files torrent) -> is_subtitle (name file) = true ->
                dirname (name file) <> dirname (filename main)) ->
  ((forall file, In file (files torrent) -> parse_extension (name file) <> "idx")
   \/ (forall file, In file (files torrent) -> parse_extension (name file) <> "sub")) ->
  let subtitle_files := filter (fun file => is_subtitle (name file)) (files torrent) in
  let sidecar file :=
    mkRule (downloadDir torrent) (name file)
           (dirname (filename main) ++ "/" ++ basename (name file)) None in
  snd (sidecar_subtitle (forward_main_videos torrent) (forward_subtitles torrent))
  = match find (fun file => is_english_subtitle (basename (name file))) subtitle_files with
    | Some file => [sidecar file]
    | None => match subtitle_files with
              | file :: _ => [sidecar file]
              | [] => []
              end
    end.
Proof.
  intros Hmain Hdir Hpair subtitle_files sidecar.
  destruct (main_video_single torrent main Hmain) as [E _].
  rewrite E. unfold sidecar_subtitle.
  destruct (has_sidecar (forward_subtitles torrent) (dirname (filename main))) eqn:Hs.
  { apply has_sidecar_spec in Hs. destruct Hs as (sub & Hsub & Hd).
    apply forward_subtitles_in in Hsub. destruct Hsub as (f & Hf & Hsf & ->).
    now apply (Hdir f Hf Hsf) in Hd. }
  destruct (has_vobsub (forward_subtitles torrent)) eqn:Hv.
  { apply has_vobsub_spec in Hv.
    destruct Hv as [(s1 & H1 & E1) (s2 & H2 & E2)].
    apply forward_subtitles_in in H1, H2.
    destruct H1 as (f1 & Hf1 & _ & ->), H2 as (f2 & Hf2 & _ & ->).
    destruct Hpair as [Hp|Hp]; [now apply (Hp f1 Hf1) in E1|now apply (Hp f2 Hf2) in E2]. }
  rewrite sidecar_best_choice, forward_subtitles_eq, find_map.
  fold subtitle_files.
  destruct (find _ subtitle_files) as [f|]; [reflexivity|].
  simpl. destruct subtitle_files; reflexivity.
Qed.

Lemma best_sidecar_is_first_english_or_first_witness :
  snd (sidecar_subtitle
         (forward_main_videos
            (mkTorrent [mkFile "film/movie.mkv" 700; mkFile "subs/French.srt" 1;
                        mkFile "subs/a.idx" 1; mkFile "subs/English.srt" 1;
                        mkFile "subs/eng.srt" 1] "dl"))
         (forward_subtitles
            (mkTorrent [mkFile "film/movie.mkv" 700; mkFile "subs/French.srt" 1;
                        mkFile "subs/a.idx" 1; mkFile "subs/English.srt" 1;
                        mkFile "subs/eng.srt" 1] "dl")))
  = [mkRule "dl" "subs/English.srt" "film/English.srt" None].
Proof.
  apply (best_sidecar_is_first_english_or_first
           (mkTorrent [mkFile "film/movie.mkv" 700; mkFile "subs/French.srt" 1;
                       mkFile "subs/a.idx" 1; mkFile "subs/English.srt" 1;
                       mkFile "subs/eng.srt" 1] "dl")
           (mkRule "dl" "film/movie.mkv" "film/movie.mkv" None)).
  - left. reflexivity.
  - intros file [<-|[<-|[<-|[<-|[<-|[]]]]]] Hs; vm_compute; discriminate.
  - right. intros file [<-|[<-|[<-|[<-|[<-|[]]]]]]; vm_compute; discriminate.
Defined.

(** X10. A video file that is strictly larger than every other video file is
    the main video, wherever it stands in the file list. *)
Theorem largest_video_wins_anywhere (torrent : Torrent) (v : File) :
  In v (files torrent) -> is_video (name v) = true ->
  (forall w, In w (files torrent) -> is_video (name w) = true ->
             w = v \/ size w < size v) ->
  forward_main_videos torrent
  = [mkRule (downloadDir torrent) (name v) (name v) None].
Proof.
  intros Hin Hv Hmax.
  destruct (forward_main_videos_spec torrent)
    as [[_ Hno]|(pre & m & post & Hf & Hm & Hpre & Hpost & E)];
    [rewrite (Hno v Hin) in Hv; discriminate|].
  rewrite E. assert (In m (files torrent)) as Hmin
    by (rewrite Hf; apply in_or_app; right; now left).
  destruct (Hmax m Hmin Hm) as [->|Hlt]; [reflexivity|].
  exfalso. rewrite Hf in Hin. apply in_app_or in Hin.
  destruct Hin as [Hp|[->|Hp]].
  - specialize (Hpre v Hp Hv). lia.
  - lia.
  - specialize (Hpost v Hp Hv). lia.
Qed.

Lemma largest_video_wins_anywhere_witness :
  forward_main_videos
    (mkTorrent [mkFile "sample.mkv" 10; mkFile "notes.txt" 900;
                mkFile "movie.mkv" 50; mkFile "extra.avi" 30] "dl")
  = [mkRule "dl" "movie.mkv" "movie.mkv" None].
Proof.
  apply (largest_video_wins_anywhere
           (mkTorrent [mkFile "sample.mkv" 10; mkFile "notes.txt" 900;
                       mkFile "movie.mkv" 50; mkFile "extra.avi" 30] "dl")
           (mkFile "movie.mkv" 50)).
  - right. right. left. reflexivity.
  - reflexivity.
  - intros w [<-|[<-|[<-|[<-|[]]]]] Hw;
      first [left; reflexivity | right; reflexivity | discriminate Hw].
Defined.

(** X11. Every sidecar rule is for a file that is also forwarded under its
    own name, so that file is transferred twice; and its destination has
    the base name of its source, also after the root is put in front. *)
Theorem sidecar_keeps_base_name (torrent : Torrent) (dest_dir : string) :
  Forall (fun r =>
            In (mkRule (download_dir r) (filename r) (filename r) None)
               (forward_subtitles torrent)
            /\ basename (dest r) = basename (filename r)
            /\ basename (dest_dir ++ dest r) = basename (filename r))
         (snd (sidecar_subtitle (forward_main_videos torrent)
                                (forward_subtitles torrent))).
Proof.
  destruct (forward_main_videos torrent) as [|main rest]; [constructor|].
  eapply Forall_impl; [|apply sidecar_subtitle_rules].
  intros r (sub & Hsub & ->). unfold sidecar_rule. simpl.
  pose proof (basename_no_sep (filename sub)) as Hb.
  split; [|split].
  - pose proof Hsub as Hin. apply forward_subtitles_in in Hin.
    destruct Hin as (f & _ & _ & ->). exact Hsub.
  - now apply basename_append.
  - rewrite <- append_assoc. now apply basename_append.
Qed.

(** X12. When the directory of the main video is not made of slashes only
    (so it is not empty), the destination of a sidecar rule lies in that
    directory: the mapper's own test for a subtitle next to the video holds
    for it. When the main video is at the top level, the destination is a
    slash followed by the base name, and its directory is [/], not the
    empty directory of the video. *)
Theorem sidecar_lands_in_video_directory (torrent : Torrent) (main r : Rule) :
  In main (forward_main_videos torrent) ->
  In r (snd (sidecar_subtitle (forward_main_videos torrent)
                              (forward_subtitles torrent))) ->
  let video_dir := dirname (filename main) in
  (video_dir <> repeat_char "/" (String.length video_dir) ->
   dirname (dest r) = video_dir)
  /\ (video_dir = "" ->
      dest r = ("/" ++ basename (filename r))%string /\ dirname (dest r) = "/").
Proof.
  intros Hmain Hr video_dir.
  destruct (main_video_single torrent main Hmain) as [E _]. rewrite E in Hr.
  pose proof (sidecar_subtitle_rules main [] (forward_subtitles torrent)) as Hall.
  rewrite Forall_forall in Hall. destruct (Hall r Hr) as (sub & _ & ->).
  unfold sidecar_rule. cbn [dest filename]. fold video_dir.
  pose proof (basename_no_sep (filename sub)) as Hb.
  split.
  - intros Hvd.
    transitivity (rstrip sep video_dir); [|now apply dirname_rstrip].
    exact (dirname_append video_dir (basename (filename sub)) Hb Hvd).
  - intros ->. split; [reflexivity|].
    unfold dirname.
    change ("" ++ "/" ++ basename (filename sub))%string
      with ("" ++ String sep (basename (filename sub)))%string.
    rewrite (rfind_append_char _ _ _ Hb). reflexivity.
Qed.

Lemma sidecar_lands_in_video_directory_witness :
  dirname (dest (mkRule "dl" "subs/English.srt" "film/English.srt" None)) = "film".
Proof.
  apply (sidecar_lands_in_video_directory
           (mkTorrent [mkFile "film/movie.mkv" 700; mkFile "subs/English.srt" 1] "dl")
           (mkRule "dl" "film/movie.mkv" "film/movie.mkv" None)
           (mkRule "dl" "subs/English.srt" "film/English.srt" None)).
  - left. reflexivity.
  - left. reflexivity.
  - vm_compute. discriminate.
Defined.

(** X13. The mapper returns the main video rule, if any, one rule for each
    subtitle file and the sidecar rules; there are never more sidecar rules
    than subtitle files, and never more than one unless the files hold both
    an [idx] and a [sub] file. *)
Theorem rule_count (torrent : Torrent) (dest_dir : string) :
  let subtitle_count :=
    List.length (filter (fun file => is_subtitle (name file)) (files torrent)) in
  let sidecars :=
    snd (sidecar_subtitle (forward_main_videos torrent) (forward_subtitles torrent)) in
  (List.length (map_single_video_download_with_subs torrent dest_dir)
   = List.length (forward_main_videos torrent) + subtitle_count + List.length sidecars
   /\ List.length (forward_main_videos torrent) <= 1
   /\ List.length sidecars <= subtitle_count
   /\ (((forall file, In file (files torrent) -> parse_extension (name file) <> "idx")
        \/ (forall file, In file (files torrent) -> parse_extension (name file) <> "sub"))
       -> List.length sidecars <= 1))%nat.
Proof.
  intros subtitle_count sidecars.
  assert (List.length (forward_subtitles torrent) = subtitle_count) as Hn
    by (rewrite forward_subtitles_eq; apply length_map).
  split; [|split; [|split]].
  - rewrite map_single_unfold, !length_app, !move_to_dir_eq, !length_map, Hn.
    fold sidecars. lia.
  - destruct (forward_main_videos_spec torrent)
      as [[-> _]|(pre & m & post & _ & _ & _ & _ & ->)]; simpl; lia.
  - rewrite <- Hn. unfold sidecars, sidecar_subtitle.
    destruct (forward_main_videos torrent) as [|main rest]; [simpl; lia|].
    destruct (has_sidecar _ _); [simpl; lia|].
    destruct (has_vobsub _); [apply sidecar_vobsub_length|apply sidecar_best_length].
  - intros Hpair. unfold sidecars, sidecar_subtitle.
    destruct (forward_main_videos torrent) as [|main rest]; [simpl; lia|].
    destruct (has_sidecar _ _); [simpl; lia|].
    destruct (has_vobsub (forward_subtitles torrent)) eqn:Hv;
      [|apply sidecar_best_length].
    apply has_vobsub_spec in Hv.
    destruct Hv as [(s1 & H1 & E1) (s2 & H2 & E2)].
    apply forward_subtitles_in in H1, H2.
    destruct H1 as (f1 & Hf1 & _ & ->), H2 as (f2 & Hf2 & _ & ->).
    destruct Hpair as [Hp|Hp]; [now apply (Hp f1 Hf1) in E1|now apply (Hp f2 Hf2) in E2].
Qed.

Lemma rule_count_witness :
  (List.length
     (snd (sidecar_subtitle
             (forward_main_videos
                (mkTorrent [mkFile "film/movie.mkv" 700; mkFile "subs/a.idx" 1;
                            mkFile "subs/b.idx" 1; mkFile "subs/c.srt" 1] "dl"))
             (forward_subtitles
                (mkTorrent [mkFile "film/movie.mkv" 700; mkFile "subs/a.idx" 1;
                            mkFile "subs/b.idx" 1; mkFile "subs/c.srt" 1] "dl"))))
   <= 1)%nat.
Proof.
  apply (rule_count
           (mkTorrent [mkFile "film/movie.mkv" 700; mkFile "subs/a.idx" 1;
                       mkFile "subs/b.idx" 1; mkFile "subs/c.srt" 1] "dl") "lib/").
  right. intros file [<-|[<-|[<-|[<-|[]]]]]; vm_compute; discriminate.
Defined.
